(** * Expense splitter: the settlement computation of [ExpensesService]

    A shallow embedding of [ExpensesService.create] and
    [ExpensesService.calculateSettlements] (backend, TypeScript), of the
    JavaScript built-ins they call, and the properties of the settlement
    computation that follow from that code.

    - A JavaScript Number is an IEEE-754 binary64 value: Rocq's primitive
      [float], whose operations are the same correctly rounded ones.
    - A JavaScript String is a sequence of UTF-16 code units: [list N].
    - The [balances] object is a plain object used as a map from names to
      running totals: an association list in property-creation order, read
      through the prototype chain of [{}] and enumerated in the order
      [Object.entries] prescribes.
    - The two-cursor [while] loop is a step function on the loop state,
      iterated a bounded number of times. *)

From Stdlib Require Import ZArith QArith Qabs List Floats Uint63 Lia Permutation.
From Stdlib Require Ascii String.
From stdpp Require Import base list sorting.
Import ListNotations.
Import String.StringSyntax.

#[local] Set Warnings "-inexact-float".
#[local] Open Scope float_scope.

(* ===================================================================== *)
(** * JavaScript numbers *)
(* ===================================================================== *)

(** The Number of an integer below [2^53] in magnitude, which binary64
    holds exactly. *)
Definition of_Z_exact (n : Z) : float :=
  if (n <? 0)%Z then - of_uint63 (Uint63.of_Z (Z.abs n))
  else of_uint63 (Uint63.of_Z n).

(** [Math.round(x)]: the integer closest to [x], a tie going toward
    [+Infinity]; NaN, the infinities, the zeros and the integers are
    returned as they are, and a result of zero keeps the sign of [x].
    For a finite [x = (-1)^s * m * 2^e] that is not an integer ([e < 0]) the
    result is [floor (x + 1/2)], computed exactly over [Z]. *)
Definition Math_round (x : float) : float :=
  match Prim2SF x with
  | S754_finite s m e =>
      if (0 <=? e)%Z then x
      else
        let n := ((2 * (if s then Z.neg m else Z.pos m) + 2 ^ (- e))
                  / 2 ^ (1 - e))%Z in
        if (n =? 0)%Z then (if s then neg_zero else zero) else of_Z_exact n
  | _ => x
  end.

(** [Math.min(x, y)] of two Numbers: NaN when either is NaN, and [-0] is
    below [+0]. *)
Definition Math_min (x y : float) : float :=
  if PrimFloat.is_nan x || PrimFloat.is_nan y then nan
  else if x <? y then x
  else if y <? x then y
  else if get_sign x then x else y.

(** [Math.max(x, y)] of two Numbers: NaN when either is NaN, and [+0] is
    above [-0]. *)
Definition Math_max (x y : float) : float :=
  if PrimFloat.is_nan x || PrimFloat.is_nan y then nan
  else if x <? y then y
  else if y <? x then x
  else if get_sign x then y else x.

(** [Math.round(x * 100) / 100], the rounding to two decimals the service
    applies to a balance and to a transfer amount. *)
Definition round2 (x : float) : float := Math_round (x * 100) / 100.

(** The Number a decimal amount of [c] hundredths reads as, for example
    [Number("0.10")] for [c = 10]: the double nearest to [c / 100]. *)
Definition cents (c : Z) : float := of_Z_exact c / 100.

(** The exact rational value of a finite Number ([0] for the others). *)
Definition Q_of_float (x : float) : Q :=
  match Prim2SF x with
  | S754_finite s m e =>
      let n := if s then Z.neg m else Z.pos m in
      if (0 <=? e)%Z then inject_Z (n * 2 ^ e)
      else Qmake n (Z.to_pos (2 ^ (- e)))
  | _ => 0%Q
  end.

(* ===================================================================== *)
(** * JavaScript strings *)
(* ===================================================================== *)

(** A String is its sequence of UTF-16 code units. *)
Abbreviation jsstring := (list N).

(** The String of an ASCII literal. *)
Definition js (s : String.string) : jsstring :=
  map Ascii.N_of_ascii (String.list_ascii_of_string s).
Arguments js s%_string_scope.

Definition comma : N := 44.
Definition colon : N := 58.

(** The code units [String.prototype.trim] strips: WhiteSpace and
    LineTerminator of ECMAScript. *)
Definition is_whitespace (c : N) : bool :=
  ((9 <=? c) && (c <=? 13) || (c =? 32) || (c =? 160) || (c =? 5760)
   || (8192 <=? c) && (c <=? 8202) || (c =? 8232) || (c =? 8233)
   || (c =? 8239) || (c =? 8287) || (c =? 12288) || (c =? 65279))%N.

Fixpoint trimStart (s : jsstring) : jsstring :=
  match s with
  | c :: r => if is_whitespace c then trimStart r else s
  | [] => []
  end.

Definition trimEnd (s : jsstring) : jsstring := rev (trimStart (rev s)).

(** [s.trim()] *)
Definition trim (s : jsstring) : jsstring := trimEnd (trimStart s).

(** [s.split(sep)] for a separator of one code unit: never empty, the
    empty string splits into one empty piece. *)
Fixpoint split (sep : N) (s : jsstring) : list jsstring :=
  match s with
  | [] => [[]]
  | c :: r =>
      if (c =? sep)%N then [] :: split sep r
      else match split sep r with
           | piece :: pieces => (c :: piece) :: pieces
           | [] => [[c]]
           end
  end.

(** [a.join(sep)] of an array of strings. *)
Fixpoint join (sep : N) (a : list jsstring) : jsstring :=
  match a with
  | [] => []
  | [s] => s
  | s :: r => s ++ sep :: join sep r
  end.

(** [Boolean(s)] of a string: the empty string alone is falsy. *)
Definition nonempty (s : jsstring) : bool :=
  match s with [] => false | _ => true end.

(** Decimal value of a sequence of digits, [None] when a code unit is not
    a digit. *)
Fixpoint digits_value (acc : N) (s : jsstring) : option N :=
  match s with
  | [] => Some acc
  | c :: r =>
      if ((48 <=? c) && (c <=? 57))%N
      then digits_value (10 * acc + (c - 48))%N r
      else None
  end.

(** A property key is an array index when it is the canonical decimal
    form of an integer in [0, 2^32 - 2]. *)
Definition array_index (s : jsstring) : option N :=
  match s with
  | [] => None
  | c :: r =>
      if ((c =? 48) && nonempty r)%N then None
      else match digits_value 0 s with
           | Some n => if (n <=? 4294967294)%N then Some n else None
           | None => None
           end
  end.

(* ===================================================================== *)
(** * A plain object used as a map *)
(* ===================================================================== *)

(** What a property of [balances] can hold. The service stores Numbers;
    a String arises only when [+=] meets a value inherited from
    [Object.prototype], and is then kept as the text it starts with and the
    Numbers appended to it since (each in its decimal rendering). *)
Inductive jsval :=
| VNumber (x : float)
| VText (prefix : jsstring) (appended : list float).

(** An object literal [{}] and what was assigned to it since: own data
    properties in creation order. *)
Abbreviation object := (list (jsstring * jsval)).

(** The function-valued properties [{}] inherits from [Object.prototype],
    each with the name of the built-in function it holds. *)
Definition Object_prototype_functions : list (jsstring * jsstring) :=
  [ (js "constructor", js "Object");
    (js "hasOwnProperty", js "hasOwnProperty");
    (js "isPrototypeOf", js "isPrototypeOf");
    (js "propertyIsEnumerable", js "propertyIsEnumerable");
    (js "toLocaleString", js "toLocaleString");
    (js "toString", js "toString");
    (js "valueOf", js "valueOf");
    (js "__defineGetter__", js "__defineGetter__");
    (js "__defineSetter__", js "__defineSetter__");
    (js "__lookupGetter__", js "__lookupGetter__");
    (js "__lookupSetter__", js "__lookupSetter__") ].

Fixpoint inherited_function (table : list (jsstring * jsstring))
    (key : jsstring) : option jsstring :=
  match table with
  | [] => None
  | (k, f) :: r =>
      if bool_decide (k = key) then Some f else inherited_function r key
  end.

(** The accessor property [{}] inherits from [Object.prototype]. *)
Definition proto_key : jsstring := js "__proto__".

(** The value of the expression [o[key]]. *)
Inductive property :=
| Undefined
| Value (v : jsval)
| BuiltinFunction (f : jsstring)
| ObjectPrototype.

Fixpoint own (o : object) (key : jsstring) : option jsval :=
  match o with
  | [] => None
  | (k, v) :: r => if bool_decide (k = key) then Some v else own r key
  end.

(** [o[key]]: the own property, else what the prototype chain gives. *)
Definition Get (o : object) (key : jsstring) : property :=
  match own o key with
  | Some v => Value v
  | None =>
      if bool_decide (key = proto_key) then ObjectPrototype
      else match inherited_function Object_prototype_functions key with
           | Some f => BuiltinFunction f
           | None => Undefined
           end
  end.

Fixpoint overwrite (o : object) (key : jsstring) (v : jsval) : object :=
  match o with
  | [] => []
  | (k, w) :: r =>
      if bool_decide (k = key) then (k, v) :: r
      else (k, w) :: overwrite r key v
  end.

(** [o[key] = v] for a Number or String [v]: an own property is
    overwritten in place; the inherited setter of [__proto__] ignores a
    value that is neither an object nor null; any other key gets a new own
    property, created last. *)
Definition Put (o : object) (key : jsstring) (v : jsval) : object :=
  match own o key with
  | Some _ => overwrite o key v
  | None => if bool_decide (key = proto_key) then o else o ++ [(key, v)]
  end.

(** Truthiness of [o[key]], as [!o[key]] tests it. *)
Definition ToBoolean (p : property) : bool :=
  match p with
  | Undefined => false
  | Value (VNumber x) => negb (PrimFloat.is_zero x || PrimFloat.is_nan x)
  | Value (VText s l) => nonempty s || negb (bool_decide (l = []))
  | BuiltinFunction _ => true
  | ObjectPrototype => true
  end.

(** The source text of a built-in function, as it converts to a string. *)
Definition native_code (f : jsstring) : jsstring :=
  js "function " ++ f ++ js "() { [native code] }".

(** [o[key] + amount] for a Number [amount]: addition of two Numbers,
    concatenation once the left operand is, or converts to, a String. *)
Definition plus (p : property) (amount : float) : jsval :=
  match p with
  | Value (VNumber x) => VNumber (x + amount)
  | Value (VText s l) => VText s (l ++ [amount])
  | BuiltinFunction f => VText (native_code f) [amount]
  | ObjectPrototype => VText (js "[object Object]") [amount]
  | Undefined => VNumber nan
  end.

(** [ToNumber]: a text that starts with [function ] or [[object ] is not
    a numeric literal. *)
Definition ToNumber (v : jsval) : float :=
  match v with
  | VNumber x => x
  | VText _ _ => nan
  end.

Definition entry_index (kv : jsstring * jsval) : option (N * (jsstring * jsval)) :=
  match array_index kv.1 with
  | Some n => Some (n, kv)
  | None => None
  end.

Definition index_le (a b : N * (jsstring * jsval)) : Prop := (a.1 <= b.1)%N.

#[local] Instance index_le_dec : RelDecision index_le.
Proof. intros a b. unfold index_le. apply _. Defined.

(** [Object.entries(o)]: the array-index keys in ascending numeric order,
    then the other keys in creation order. *)
Definition Object_entries (o : object) : list (jsstring * jsval) :=
  map snd (merge_sort index_le (omap entry_index o))
  ++ List.filter (fun kv => bool_decide (array_index kv.1 = None)) o.

(* ===================================================================== *)
(** * The expenses service *)
(* ===================================================================== *)

Module CreateExpenseDto.
Record t := mk {
  payerName : jsstring;
  amount : float;
  description : jsstring;
  participants : list jsstring
}.
End CreateExpenseDto.

(** A row of the [Expense] entity as [calculateSettlements] reads it:
    [participants] is the comma-separated column, [amount] the value
    [Number(e.amount)] of the [decimal(10,2)] column. The generated [id] and
    [createdAt] play no part in the computation. *)
Module Expense.
Record t := mk {
  payerName : jsstring;
  amount : float;
  description : jsstring;
  participants : jsstring
}.
End Expense.

Module Party.
Record t := mk { name : jsstring; amount : float }.
End Party.

Module Settlement.
Record t := mk { from : jsstring; to : jsstring; amount : float }.
End Settlement.

Module Result.
Record t := mk { balances : object; settlements : list Settlement.t }.
End Result.

(** [create]: the entity handed to the repository. *)
Definition create (dto : CreateExpenseDto.t) : Expense.t :=
  {| Expense.payerName := CreateExpenseDto.payerName dto;
     Expense.amount := CreateExpenseDto.amount dto;
     Expense.description := CreateExpenseDto.description dto;
     Expense.participants := join comma (CreateExpenseDto.participants dto) |}.

(** [addBalance], on the [balances] object it closes over:
    [if (!balances[name]) balances[name] = 0; balances[name] += amount]. *)
Definition addBalance (balances : object) (name : jsstring) (amount : float)
  : object :=
  let balances :=
    if ToBoolean (Get balances name) then balances
    else Put balances name (VNumber 0) in
  Put balances name (plus (Get balances name) amount).

(** [e.participants.split(',').map((p) => p.trim()).filter(Boolean)] *)
Definition parsed_participants (stored : jsstring) : list jsstring :=
  List.filter nonempty (map trim (split comma stored)).

(** The body of [for (const e of expenses)]. *)
Definition process_expense (balances : object) (e : Expense.t) : object :=
  let participants := parsed_participants (Expense.participants e) in
  if (length participants =? 0)%nat then balances
  else
    let share := Expense.amount e / of_Z_exact (Z.of_nat (length participants)) in
    let balances :=
      fold_left (fun b p => addBalance b p (- share)) participants balances in
    addBalance balances (Expense.payerName e) (Expense.amount e).

(** The [balances] object after the first loop. *)
Definition accumulate (expenses : list Expense.t) : object :=
  fold_left process_expense expenses [].

(** [Math.round(balance * 100) / 100] *)
Definition rounded (balance : jsval) : float := round2 (ToNumber balance).

(** The body of [for (const [name, balance] of Object.entries(balances))],
    on the pair [(creditors, debtors)]. *)
Definition partition_entry (acc : list Party.t * list Party.t)
    (entry : jsstring * jsval) : list Party.t * list Party.t :=
  let '(name, balance) := entry in
  let r := rounded balance in
  if 0 <? r then (acc.1 ++ [Party.mk name r], acc.2)
  else if r <? 0 then (acc.1, acc.2 ++ [Party.mk name (- r)])
  else acc.

Definition partition (balances : object) : list Party.t * list Party.t :=
  fold_left partition_entry (Object_entries balances) ([], []).

Definition initial_creditors (balances : object) : list Party.t :=
  (partition balances).1.

Definition initial_debtors (balances : object) : list Party.t :=
  (partition balances).2.

(** The variables of the [while] loop. *)
Record LoopState := mkLoop {
  debtors : list Party.t;
  creditors : list Party.t;
  i : nat;
  j : nat;
  settlements : list Settlement.t
}.

(** [i < debtors.length && j < creditors.length] *)
Definition loop_condition (st : LoopState) : bool :=
  (i st <? length (debtors st))%nat && (j st <? length (creditors st))%nat.

(** One pass through the body of the [while] loop. [debtor] and [creditor]
    are the array elements themselves, so the two subtractions update the
    arrays in place. *)
Definition loop_body (st : LoopState) : LoopState :=
  match debtors st !! i st, creditors st !! j st with
  | Some debtor, Some creditor =>
      let amount := Math_min (Party.amount debtor) (Party.amount creditor) in
      let settlements :=
        settlements st
        ++ [ Settlement.mk (Party.name debtor) (Party.name creditor)
               (round2 amount) ] in
      let debtor := Party.mk (Party.name debtor) (Party.amount debtor - amount) in
      let creditor :=
        Party.mk (Party.name creditor) (Party.amount creditor - amount) in
      {| debtors := <[i st := debtor]> (debtors st);
         creditors := <[j st := creditor]> (creditors st);
         i := if Party.amount debtor =? 0 then S (i st) else i st;
         j := if Party.amount creditor =? 0 then S (j st) else j st;
         settlements := settlements |}
  | _, _ => st
  end.

(** The loop state after at most [n] passes: the loop stops before [n]
    when its condition fails. *)
Fixpoint iterations (n : nat) (st : LoopState) : LoopState :=
  match n with
  | O => st
  | S n' => if loop_condition st then iterations n' (loop_body st) else st
  end.

Definition loop_start (balances : object) : LoopState :=
  {| debtors := initial_debtors balances;
     creditors := initial_creditors balances;
     i := 0; j := 0; settlements := [] |}.

(** The transfers pushed during the first [n] passes of the loop. *)
Definition emitted (n : nat) (expenses : list Expense.t) : list Settlement.t :=
  settlements (iterations n (loop_start (accumulate expenses))).

(** [calculateSettlements] on the rows [findAll] returned, given [fuel]
    passes of the [while] loop: [None] when the loop has not ended by then.
    The returned [balances] is the object the first loop filled. *)
Definition calculateSettlements (fuel : nat) (expenses : list Expense.t)
  : option Result.t :=
  let balances := accumulate expenses in
  let st := iterations fuel (loop_start balances) in
  if loop_condition st then None
  else Some {| Result.balances := balances;
               Result.settlements := settlements st |}.

(** The row stored for an expense of [c] hundredths paid by [payer] for
    the participants listed in [listed], as [findAll] hands it back. *)
Definition expense (payer : jsstring) (c : Z) (listed : jsstring) : Expense.t :=
  {| Expense.payerName := payer; Expense.amount := cents c;
     Expense.description := js "shared"; Expense.participants := listed |}.

(* ===================================================================== *)
(** * The client's participants field *)
(* ===================================================================== *)

Module ParticipantShare.
Record t := mk { name : jsstring; count : float }.
End ParticipantShare.

Section Client.

(** [Number(s)] of a String, the built-in conversion, left open here: the
    names the client submits do not depend on it. *)
Variable StringToNumber : jsstring -> float.

(** One entry [name] or [name:count] of the field:
    [const [rawName, rawCount] = s.split(':').map((x) => x.trim());
     const count = rawCount ? Math.max(1, Number(rawCount) || 1) : 1]. *)
Definition parse_share (s : jsstring) : ParticipantShare.t :=
  let pieces := map trim (split colon s) in
  let rawName := default [] (pieces !! 0%nat) in
  let count :=
    match pieces !! 1%nat with
    | Some rawCount =>
        if nonempty rawCount then
          let n := StringToNumber rawCount in
          Math_max 1 (if PrimFloat.is_zero n || PrimFloat.is_nan n then 1 else n)
        else 1
    | None => 1
    end in
  ParticipantShare.mk rawName count.

(** [parseParticipantsInput] on the text of the participants field. *)
Definition parseParticipantsInput (input : jsstring) : list ParticipantShare.t :=
  List.filter (fun p => nonempty (ParticipantShare.name p))
    (map parse_share (List.filter nonempty (map trim (split comma input)))).

(** [parseParticipantsInput(participantsInput).map((p) => p.name)], the
    [participants] array the submit handler posts: names only. *)
Definition submitted_participants (input : jsstring) : list jsstring :=
  map ParticipantShare.name (parseParticipantsInput input).

End Client.

(* ===================================================================== *)
(** * Notions used to state the properties *)
(* ===================================================================== *)

(** A debtor is a name whose rounded balance is below zero, a creditor a
    name whose rounded balance is above zero. *)
Definition is_debtor (balances : object) (name : jsstring) : Prop :=
  exists v, own balances name = Some v /\ (rounded v <? 0) = true.

Definition is_creditor (balances : object) (name : jsstring) : Prop :=
  exists v, own balances name = Some v /\ (0 <? rounded v) = true.

Definition debtor_entries (balances : object) : list (jsstring * jsval) :=
  List.filter (fun kv => rounded kv.2 <? 0) (Object_entries balances).

Definition creditor_entries (balances : object) : list (jsstring * jsval) :=
  List.filter (fun kv => 0 <? rounded kv.2) (Object_entries balances).

(** A name that is no member of [Object.prototype]: [balances[name]] then
    reads the own property or [undefined]. *)
Definition ordinary (name : jsstring) : Prop :=
  name <> proto_key
  /\ inherited_function Object_prototype_functions name = None.

(** The value [addBalance] leaves under an ordinary name that held [held]
    ([None] for no property): [held], or 0 when [held] is missing, zero or
    NaN, plus [amount]. *)
Definition added (held : option jsval) (amount : float) : jsval :=
  let p := match held with Some v => Value v | None => Undefined end in
  plus (if ToBoolean p then p else Value (VNumber 0)) amount.

(** How many times [name] is listed among the parsed participants. *)
Definition listings (name : jsstring) (listed : list jsstring) : nat :=
  length (List.filter (fun p => bool_decide (p = name)) listed).

(** A value that is a Number already at two decimals: rounding it again
    changes nothing. *)
Definition two_decimal (v : jsval) : Prop := v = VNumber (rounded v).

(** The exact sum of the rounded balances, and the tolerance of one
    hundredth per name. *)
Definition rounded_total (balances : object) : Q :=
  fold_right Qplus 0%Q (map (fun kv => Q_of_float (rounded kv.2)) balances).

Definition conservation_tolerance (balances : object) : Q :=
  ((1 # 100) * inject_Z (Z.of_nat (length balances)))%Q.

Definition conserved (balances : object) : Prop :=
  (Qabs (rounded_total balances) <= conservation_tolerance balances)%Q.

(** A name as [create] can store it and [calculateSettlements] read it
    back unchanged: not empty, no comma, no whitespace at either end. *)
Definition storable (s : jsstring) : Prop :=
  s <> []
  /\ (comma ∉ s)
  /\ (forall c, head s = Some c -> is_whitespace c = false)
  /\ (forall c, last s = Some c -> is_whitespace c = false).

(** A text made of whitespace only. *)
Definition blank (s : jsstring) : Prop :=
  Forall (fun c => is_whitespace c = true) s.

(** One entry as it is typed in the participants field: a name with
    blanks around it, followed or not by a colon and a weight. *)
Module TypedEntry.
Record t := mk { before : jsstring; name : jsstring; after : jsstring;
                 weight : option jsstring }.
End TypedEntry.

Definition typed_entry (e : TypedEntry.t) : jsstring :=
  TypedEntry.before e ++ TypedEntry.name e ++ TypedEntry.after e
  ++ match TypedEntry.weight e with
     | Some w => colon :: w
     | None => []
     end.

(** The text of the field: the entries, separated by commas. *)
Definition typed_field (entries : list TypedEntry.t) : jsstring :=
  join comma (map typed_entry entries).

(** The name is one [create] can store and holds no colon, what surrounds
    it is blank, and the weight, whatever else it holds, has no comma: a
    comma would start the next entry. *)
Definition well_typed (e : TypedEntry.t) : Prop :=
  storable (TypedEntry.name e)
  /\ (colon ∉ TypedEntry.name e)
  /\ blank (TypedEntry.before e)
  /\ blank (TypedEntry.after e)
  /\ (forall w, TypedEntry.weight e = Some w -> comma ∉ w).

(** The cursor positions the loop has left: each pass that does not leave
    NaN behind uses up at least one. *)
Definition cursor_room (st : LoopState) : nat :=
  (length (debtors st) - i st) + (length (creditors st) - j st).

(** NaN under a cursor: the amounts of the pair being matched are never 0
    again. *)
Definition stuck (st : LoopState) : Prop :=
  exists d c, debtors st !! i st = Some d /\ creditors st !! j st = Some c
              /\ (Party.amount d = nan \/ Party.amount c = nan).

(** The expenses that name [k]: not skipped, with [k] the payer or one of
    the parsed participants. *)
Definition named_by (expenses : list Expense.t) (k : jsstring) : Prop :=
  exists e, e ∈ expenses
            /\ parsed_participants (Expense.participants e) <> []
            /\ (k = Expense.payerName e
                \/ k ∈ parsed_participants (Expense.participants e)).

(** The parties the cursors have passed have nothing left. *)
Definition passed_settled (st : LoopState) : Prop :=
  (forall a p, (a < i st)%nat -> debtors st !! a = Some p ->
               (Party.amount p =? 0)%float = true)
  /\ (forall b p, (b < j st)%nat -> creditors st !! b = Some p ->
                  (Party.amount p =? 0)%float = true).

(** The ends of a transfer, as a pair. *)
Definition ends (t : Settlement.t) : jsstring * jsstring :=
  (Settlement.from t, Settlement.to t).

(** Every transfer pushed so far joins cursor positions that lie behind the
    present ones, and no pair of ends was pushed twice. *)
Definition pairs_behind (st : LoopState) : Prop :=
  NoDup (map ends (settlements st))
  /\ Forall (fun t => exists a b,
                 map Party.name (debtors st) !! a = Some (Settlement.from t)
                 /\ map Party.name (creditors st) !! b = Some (Settlement.to t)
                 /\ (a + b < i st + j st)%nat)
            (settlements st).

(** Every party a cursor has passed is an end of some transfer. *)
Definition passed_paid (st : LoopState) : Prop :=
  (forall a p, (a < i st)%nat -> debtors st !! a = Some p ->
               Party.name p ∈ map Settlement.from (settlements st))
  /\ (forall b p, (b < j st)%nat -> creditors st !! b = Some p ->
                  Party.name p ∈ map Settlement.to (settlements st)).

(** What is known of a shift record after [k] single shifts of [m0]. *)
Definition shifted (m0 : Z) (k : Z) (mrs : shr_record) : Prop :=
  (shr_m mrs = m0 / 2 ^ k)%Z
  /\ (shr_r mrs = true -> shr_m mrs * 2 ^ k < m0)%Z
  /\ (shr_s mrs = true -> shr_m mrs * 2 ^ k < m0)%Z.

(** The result of a rounding that neither overflows nor fails: zero or a
    finite number, of the given sign. *)
Definition zero_or_finite (s : bool) (r : spec_float) : Prop :=
  r = S754_zero s \/ exists m e, r = S754_finite s m e.

(** A Number that is not below zero and is not NaN: a zero, a positive
    finite Number or [+Infinity]. *)
Definition not_negative (r : spec_float) : Prop :=
  match r with
  | S754_zero _ => True
  | S754_finite false _ _ => True
  | S754_infinity false => True
  | _ => False
  end.

(** An amount the loop can work on: zero, or positive and finite. *)
Definition payable (x : float) : Prop :=
  match Prim2SF x with
  | S754_zero _ => True
  | S754_finite false _ _ => True
  | _ => False
  end.

(** Every remaining amount of the loop state is payable. *)
Definition all_payable (st : LoopState) : Prop :=
  Forall (fun p => payable (Party.amount p)) (debtors st)
  /\ Forall (fun p => payable (Party.amount p)) (creditors st).

(** No rounded balance is infinite. *)
Definition finite_balances (balances : object) : Prop :=
  Forall (fun kv => PrimFloat.is_infinity (rounded kv.2) = false) balances.

(* ===================================================================== *)
(** * Facts about Numbers *)
(* ===================================================================== *)

Lemma float_of_spec (x : float) (s : spec_float) :
  Prim2SF x = s -> x = SF2Prim s.
Proof. intros <-. symmetry. apply SF2Prim_Prim2SF. Qed.

Lemma sub_nan_l (y : float) : nan - y = nan.
Proof.
  apply Prim2SF_inj. rewrite FloatAxioms.sub_spec.
  change (Prim2SF nan) with S754_nan. reflexivity.
Qed.

Lemma sub_nan_r (x : float) : x - nan = nan.
Proof.
  apply Prim2SF_inj. rewrite FloatAxioms.sub_spec.
  change (Prim2SF nan) with S754_nan.
  unfold SF64sub. destruct (Prim2SF x); reflexivity.
Qed.

Lemma SFsub_diag (x : spec_float) :
  SFsub prec emax x x = S754_zero false \/ SFsub prec emax x x = S754_nan.
Proof.
  destruct x as [s|s| |s m e]; simpl.
  - left. destruct s; reflexivity.
  - right. destruct s; reflexivity.
  - right. reflexivity.
  - left. rewrite Z.sub_diag. reflexivity.
Qed.

(** [x - x] is zero, or NaN when [x] is not finite. *)
Lemma sub_diag (x : float) : x - x = zero \/ x - x = nan.
Proof.
  destruct (SFsub_diag (Prim2SF x)) as [H|H]; [left|right];
    apply Prim2SF_inj; rewrite FloatAxioms.sub_spec; unfold SF64sub; rewrite H; reflexivity.
Qed.

Lemma Math_min_cases (x y : float) :
  Math_min x y = nan \/ Math_min x y = x \/ Math_min x y = y.
Proof.
  unfold Math_min.
  destruct (PrimFloat.is_nan x || PrimFloat.is_nan y); [now left|].
  destruct (x <? y); [now right; left|].
  destruct (y <? x); [now right; right|].
  destruct (get_sign x); [now right; left|now right; right].
Qed.

Lemma Math_min_nan_l (y : float) : Math_min nan y = nan.
Proof. reflexivity. Qed.

Lemma Math_min_nan_r (x : float) : Math_min x nan = nan.
Proof.
  unfold Math_min. change (PrimFloat.is_nan nan) with true.
  rewrite orb_true_r. reflexivity.
Qed.

(** A Number cannot be both below and above zero. *)
Lemma ltb_zero_asym (r : float) : (r <? 0) = true -> (0 <? r) = false.
Proof.
  rewrite !FloatAxioms.ltb_spec. change (Prim2SF 0) with (S754_zero false).
  unfold SFltb. destruct (Prim2SF r) as [s|s| |s m e]; simpl; try destruct s; congruence.
Qed.

(** A Number equal to zero is neither below nor above zero. *)
Lemma eqb_zero_not_ltb (r : float) :
  (r =? 0) = true -> (r <? 0) = false /\ (0 <? r) = false.
Proof.
  rewrite FloatAxioms.eqb_spec, !FloatAxioms.ltb_spec. change (Prim2SF 0) with (S754_zero false).
  unfold SFeqb, SFltb.
  destruct (Prim2SF r) as [s|s| |s m e]; simpl; try destruct s; auto; congruence.
Qed.

(* ===================================================================== *)
(** * The matching loop *)
(* ===================================================================== *)

Lemma loop_condition_true (st : LoopState) :
  loop_condition st = true <->
  exists d c, debtors st !! i st = Some d /\ creditors st !! j st = Some c.
Proof.
  unfold loop_condition. rewrite andb_true_iff, !Nat.ltb_lt. split.
  - intros [Hi Hj].
    destruct (lookup_lt_is_Some_2 _ _ Hi) as [d Hd].
    destruct (lookup_lt_is_Some_2 _ _ Hj) as [c Hc]. eauto.
  - intros (d & c & Hd & Hc). split; eapply lookup_lt_Some; eauto.
Qed.

Lemma names_insert (l : list Party.t) (k : nat) (p p' : Party.t) :
  l !! k = Some p -> Party.name p' = Party.name p ->
  map Party.name (<[k := p']> l) = map Party.name l.
Proof.
  revert k. induction l as [|a l IH]; intros [|k] Hk Hn; simpl in *; try discriminate.
  - injection Hk as ->. now rewrite Hn.
  - f_equal. now apply IH.
Qed.

Lemma loop_body_debtor_names (st : LoopState) :
  map Party.name (debtors (loop_body st)) = map Party.name (debtors st).
Proof.
  unfold loop_body.
  destruct (debtors st !! i st) as [d|] eqn:Hd; [|reflexivity].
  destruct (creditors st !! j st) as [c|] eqn:Hc; [|reflexivity].
  simpl. now apply names_insert with d.
Qed.

Lemma loop_body_creditor_names (st : LoopState) :
  map Party.name (creditors (loop_body st)) = map Party.name (creditors st).
Proof.
  unfold loop_body.
  destruct (debtors st !! i st) as [d|] eqn:Hd; [|reflexivity].
  destruct (creditors st !! j st) as [c|] eqn:Hc; [|reflexivity].
  simpl. now apply names_insert with c.
Qed.

Lemma loop_body_lengths (st : LoopState) :
  length (debtors (loop_body st)) = length (debtors st)
  /\ length (creditors (loop_body st)) = length (creditors st).
Proof.
  rewrite <- !(length_map Party.name),
    loop_body_debtor_names, loop_body_creditor_names. auto.
Qed.

(** One pass pushes exactly one transfer, from the debtor under cursor [i]
    to the creditor under cursor [j]. *)
Lemma loop_body_settlements (st : LoopState) (d c : Party.t) :
  debtors st !! i st = Some d -> creditors st !! j st = Some c ->
  settlements (loop_body st)
  = settlements st
    ++ [Settlement.mk (Party.name d) (Party.name c)
          (round2 (Math_min (Party.amount d) (Party.amount c)))].
Proof. intros Hd Hc. unfold loop_body. rewrite Hd, Hc. reflexivity. Qed.

(** One pass moves a cursor forward, or leaves NaN under a cursor. *)
Lemma loop_body_progress (st : LoopState) :
  loop_condition st = true ->
  (i st <= i (loop_body st) <= S (i st)
   /\ j st <= j (loop_body st) <= S (j st)
   /\ i st + j st < i (loop_body st) + j (loop_body st))%nat
  \/ stuck (loop_body st).
Proof.
  intros (d & c & Hd & Hc)%loop_condition_true.
  pose proof (lookup_lt_Some _ _ _ Hd) as Hi.
  pose proof (lookup_lt_Some _ _ _ Hc) as Hj.
  unfold stuck, loop_body. rewrite Hd, Hc. cbn [debtors creditors i j Party.amount].
  set (a := Math_min (Party.amount d) (Party.amount c)).
  destruct (Party.amount d - a =? 0) eqn:Ed;
    destruct (Party.amount c - a =? 0) eqn:Ec; try (left; lia).
  right. eexists _, _. rewrite !list_lookup_insert_eq by assumption.
  split; [reflexivity|]. split; [reflexivity|]. cbn [Party.amount].
  destruct (Math_min_cases (Party.amount d) (Party.amount c)) as [H|[H|H]];
    fold a in H; rewrite H in *.
  - left. apply sub_nan_r.
  - left. destruct (sub_diag (Party.amount d)) as [E|E]; [|exact E].
    rewrite E in Ed. discriminate.
  - right. destruct (sub_diag (Party.amount c)) as [E|E]; [|exact E].
    rewrite E in Ec. discriminate.
Qed.

(** Once NaN is under a cursor it stays there, and the loop condition with
    it. *)
Lemma stuck_loop_body (st : LoopState) : stuck st -> stuck (loop_body st).
Proof.
  intros (d & c & Hd & Hc & Hn).
  pose proof (lookup_lt_Some _ _ _ Hd) as Hi.
  pose proof (lookup_lt_Some _ _ _ Hc) as Hj.
  assert (Ha : Math_min (Party.amount d) (Party.amount c) = nan).
  { destruct Hn as [-> | ->]; [apply Math_min_nan_l|apply Math_min_nan_r]. }
  unfold stuck, loop_body. rewrite Hd, Hc, Ha. cbn [debtors creditors i j Party.amount].
  rewrite !sub_nan_r. change (nan =? 0) with false.
  eexists _, _. rewrite !list_lookup_insert_eq by assumption.
  split; [reflexivity|]. split; [reflexivity|]. now left.
Qed.

Lemma stuck_condition (st : LoopState) : stuck st -> loop_condition st = true.
Proof. intros (d & c & Hd & Hc & _). apply loop_condition_true. eauto. Qed.

Lemma stuck_iterations (n : nat) (st : LoopState) :
  stuck st -> stuck (iterations n st).
Proof.
  revert st. induction n as [|n IH]; intros st H; simpl; [exact H|].
  rewrite (stuck_condition _ H). apply IH, stuck_loop_body, H.
Qed.

(** A loop that ends has moved a cursor at every pass: the transfers it
    pushed are fewer than the cursor positions left. *)
Lemma iterations_count (n : nat) (st : LoopState) :
  loop_condition st = true ->
  loop_condition (iterations n st) = false ->
  (length (settlements (iterations n st)) + i st + j st + 1
   <= length (settlements st) + length (debtors st) + length (creditors st))%nat.
Proof.
  revert st. induction n as [|n IH]; intros st Hc He; simpl in *; [congruence|].
  rewrite Hc in He |- *.
  destruct (loop_condition_true st) as [(d & c & Hd & Hcr) _]; [exact Hc|].
  pose proof (lookup_lt_Some _ _ _ Hd) as Hi.
  pose proof (lookup_lt_Some _ _ _ Hcr) as Hj.
  pose proof (loop_body_settlements st d c Hd Hcr) as Hs.
  destruct (loop_body_lengths st) as [Ld Lc].
  destruct (loop_body_progress st Hc) as [(Pi & Pj & Pij)|Hst].
  - destruct (loop_condition (loop_body st)) eqn:Hc'.
    + specialize (IH _ Hc' He). rewrite Hs, Ld, Lc, length_app in IH.
      simpl in IH. lia.
    + destruct n; simpl in *; rewrite ?Hc' in *; rewrite Hs, length_app; simpl; lia.
  - apply (stuck_iterations n) in Hst. apply stuck_condition in Hst. congruence.
Qed.

Lemma iterations_exited (n : nat) (st : LoopState) :
  loop_condition st = false -> iterations n st = st.
Proof. intros H. destruct n; simpl; [|rewrite H]; reflexivity. Qed.

(** The loop ends within as many passes as there are cursor positions
    left, or NaN comes under a cursor and it never ends. *)
Lemma loop_ends_or_never (st : LoopState) :
  (exists n, (n <= cursor_room st)%nat
             /\ loop_condition (iterations n st) = false)
  \/ ((exists n, stuck (iterations n st))
      /\ forall n, loop_condition (iterations n st) = true).
Proof.
  remember (cursor_room st) as room eqn:Hr.
  assert (Hle : (cursor_room st <= room)%nat) by lia.
  clear Hr. revert st Hle.
  induction room as [|room IH]; intros st Hle.
  - left. exists 0%nat. split; [lia|]. simpl. unfold loop_condition.
    unfold cursor_room in Hle. apply andb_false_iff. rewrite !Nat.ltb_ge. lia.
  - destruct (loop_condition st) eqn:Hc.
    2:{ left. exists 0%nat. split; [lia|exact Hc]. }
    destruct (loop_body_lengths st) as [Ld Lc].
    assert (Hc' := Hc). unfold loop_condition in Hc'.
    apply andb_true_iff in Hc'. rewrite !Nat.ltb_lt in Hc'.
    destruct (loop_body_progress st Hc) as [(Pi & Pj & Pij)|Hst].
    + assert (Hroom : (S (cursor_room (loop_body st)) <= cursor_room st)%nat).
      { unfold cursor_room. rewrite Ld, Lc. lia. }
      destruct (IH (loop_body st)) as [(n & Hn & He)|[[n Hn] Hnever]]; [lia| |].
      * left. exists (S n). split; [lia|]. simpl. rewrite Hc. exact He.
      * right. split.
        -- exists (S n). simpl. now rewrite Hc.
        -- intros [|m]; simpl; [exact Hc|]. rewrite Hc. apply Hnever.
    + right. split.
      * exists 1%nat. simpl. now rewrite Hc.
      * intros [|n]; simpl; [exact Hc|]. rewrite Hc.
        apply stuck_condition, stuck_iterations, Hst.
Qed.

(* ===================================================================== *)
(** * The balances object *)
(* ===================================================================== *)

Lemma own_elem_of (o : object) (k : jsstring) (v : jsval) :
  own o k = Some v -> (k, v) ∈ o.
Proof.
  induction o as [|[k' w] o IH]; simpl; [discriminate|].
  case_bool_decide as E; [intros [= ->]; subst; left|right; auto].
Qed.

Lemma own_None (o : object) (k : jsstring) :
  own o k = None <-> k ∉ map fst o.
Proof.
  induction o as [|[k' w] o IH]; simpl.
  - split; [intros _ H; inversion H|reflexivity].
  - rewrite not_elem_of_cons. case_bool_decide as E.
    + split; [discriminate|]. intros [H _]. now subst.
    + rewrite IH. split; [intros H; split; [congruence|exact H]|tauto].
Qed.

(** With distinct keys, an entry of the object is what [own] finds. *)
Lemma NoDup_own (o : object) (k : jsstring) (v : jsval) :
  NoDup (map fst o) -> (k, v) ∈ o -> own o k = Some v.
Proof.
  induction o as [|[k' w] o IH]; simpl; [intros _ H; inversion H|].
  intros [Hk Hnd]%NoDup_cons [[= -> ->]|Hin]%elem_of_cons.
  - now rewrite bool_decide_eq_true_2.
  - case_bool_decide as E; [|auto].
    subst k'. exfalso. apply Hk.
    apply list_elem_of_In. apply list_elem_of_In in Hin.
    now apply (in_map fst) in Hin.
Qed.

Lemma overwrite_keys (o : object) (k : jsstring) (v : jsval) :
  map fst (overwrite o k v) = map fst o.
Proof.
  induction o as [|[k' w] o IH]; simpl; [reflexivity|].
  case_bool_decide; simpl; [reflexivity|now rewrite IH].
Qed.

Lemma Put_NoDup (o : object) (k : jsstring) (v : jsval) :
  NoDup (map fst o) -> NoDup (map fst (Put o k v)).
Proof.
  intros Hnd. unfold Put. destruct (own o k) eqn:Ho.
  - now rewrite overwrite_keys.
  - case_bool_decide; [exact Hnd|].
    rewrite map_app. simpl. apply own_None in Ho.
    apply NoDup_app. split; [exact Hnd|]. split; [|apply NoDup_singleton].
    intros x Hx ->%list_elem_of_singleton. contradiction.
Qed.

Lemma addBalance_NoDup (o : object) (name : jsstring) (amount : float) :
  NoDup (map fst o) -> NoDup (map fst (addBalance o name amount)).
Proof.
  intros H. unfold addBalance.
  destruct (ToBoolean (Get o name)); auto using Put_NoDup.
Qed.

Lemma debit_all_NoDup (share : float) (ps : list jsstring) (o : object) :
  NoDup (map fst o) ->
  NoDup (map fst (fold_left (fun b p => addBalance b p share) ps o)).
Proof.
  revert o. induction ps as [|p ps IH]; intros o H; simpl;
    auto using addBalance_NoDup.
Qed.

Lemma process_expense_NoDup (o : object) (e : Expense.t) :
  NoDup (map fst o) -> NoDup (map fst (process_expense o e)).
Proof.
  intros H. unfold process_expense.
  destruct (length _ =? 0)%nat; [exact H|].
  apply addBalance_NoDup, debit_all_NoDup, H.
Qed.

(** The names of the balances object are pairwise distinct. *)
Lemma accumulate_NoDup (expenses : list Expense.t) :
  NoDup (map fst (accumulate expenses)).
Proof.
  unfold accumulate.
  assert (H : NoDup (map fst ([] : object))) by constructor.
  revert H. generalize ([] : object).
  induction expenses as [|e es IH]; intros o H; simpl;
    auto using process_expense_NoDup.
Qed.

Lemma index_entries_split (o : object) :
  map snd (omap entry_index o)
  ++ List.filter (fun kv => bool_decide (array_index kv.1 = None)) o ≡ₚ o.
Proof.
  induction o as [|[k v] o IH]; simpl; [constructor|].
  unfold entry_index at 1. simpl.
  destruct (array_index k) as [n|] eqn:E; simpl.
  - now constructor.
  - symmetry. apply Permutation_cons_app. now symmetry.
Qed.

(** [Object.entries] enumerates every own property once. *)
Lemma Object_entries_Permutation (o : object) : Object_entries o ≡ₚ o.
Proof.
  unfold Object_entries. etransitivity; [|apply index_entries_split].
  apply Permutation_app_tail, Permutation_map, merge_sort_Permutation.
Qed.

Lemma Object_entries_elem_of (o : object) (kv : jsstring * jsval) :
  kv ∈ Object_entries o <-> kv ∈ o.
Proof. now rewrite Object_entries_Permutation. Qed.

Lemma Object_entries_NoDup (expenses : list Expense.t) :
  NoDup (map fst (Object_entries (accumulate expenses))).
Proof.
  rewrite (Permutation_map fst (Object_entries_Permutation _)).
  apply accumulate_NoDup.
Qed.

(* ===================================================================== *)
(** * The partition into creditors and debtors *)
(* ===================================================================== *)

Lemma partition_fold (l : list (jsstring * jsval)) (acc : list Party.t * list Party.t) :
  fold_left partition_entry l acc
  = (acc.1 ++ map (fun kv => Party.mk kv.1 (rounded kv.2))
                (List.filter (fun kv => 0 <? rounded kv.2) l),
     acc.2 ++ map (fun kv => Party.mk kv.1 (- rounded kv.2))
                (List.filter (fun kv => rounded kv.2 <? 0) l)).
Proof.
  revert acc. induction l as [|[k v] l IH]; intros [cs ds]; simpl.
  - now rewrite !app_nil_r.
  - rewrite IH. clear IH.
    destruct (0 <? rounded v) eqn:Hpos; simpl.
    + destruct (rounded v <? 0) eqn:Hneg.
      * apply ltb_zero_asym in Hneg. congruence.
      * now rewrite <- app_assoc.
    + destruct (rounded v <? 0); simpl; [|reflexivity].
      now rewrite <- app_assoc.
Qed.

(** The creditors are the entries with a rounded balance above zero, each
    with that rounded balance as its amount. *)
Lemma initial_creditors_spec (balances : object) :
  initial_creditors balances
  = map (fun kv => Party.mk kv.1 (rounded kv.2)) (creditor_entries balances).
Proof. unfold initial_creditors, partition. now rewrite partition_fold. Qed.

(** The debtors are the entries with a rounded balance below zero, each
    with the opposite of that rounded balance as its amount. *)
Lemma initial_debtors_spec (balances : object) :
  initial_debtors balances
  = map (fun kv => Party.mk kv.1 (- rounded kv.2)) (debtor_entries balances).
Proof. unfold initial_debtors, partition. now rewrite partition_fold. Qed.

Lemma debtor_names_spec (expenses : list Expense.t) (name : jsstring) :
  name ∈ map Party.name (initial_debtors (accumulate expenses))
  <-> is_debtor (accumulate expenses) name.
Proof.
  rewrite initial_debtors_spec, map_map. simpl. unfold debtor_entries, is_debtor.
  rewrite list_elem_of_In, in_map_iff. split.
  - intros ([k v] & <- & [Hin Hr]%filter_In). exists v. split; [|exact Hr].
    apply NoDup_own; [apply accumulate_NoDup|].
    now apply Object_entries_elem_of, list_elem_of_In.
  - intros (v & Ho & Hr). exists (name, v). split; [reflexivity|].
    apply filter_In. split; [|exact Hr].
    now apply list_elem_of_In, Object_entries_elem_of, own_elem_of.
Qed.

Lemma creditor_names_spec (expenses : list Expense.t) (name : jsstring) :
  name ∈ map Party.name (initial_creditors (accumulate expenses))
  <-> is_creditor (accumulate expenses) name.
Proof.
  rewrite initial_creditors_spec, map_map. simpl.
  unfold creditor_entries, is_creditor.
  rewrite list_elem_of_In, in_map_iff. split.
  - intros ([k v] & <- & [Hin Hr]%filter_In). exists v. split; [|exact Hr].
    apply NoDup_own; [apply accumulate_NoDup|].
    now apply Object_entries_elem_of, list_elem_of_In.
  - intros (v & Ho & Hr). exists (name, v). split; [reflexivity|].
    apply filter_In. split; [|exact Hr].
    now apply list_elem_of_In, Object_entries_elem_of, own_elem_of.
Qed.

(** No name is both a debtor and a creditor. *)
Lemma debtor_not_creditor (balances : object) (name : jsstring) :
  is_debtor balances name -> ~ is_creditor balances name.
Proof.
  intros (v & Hv & Hneg) (w & Hw & Hpos).
  rewrite Hv in Hw. injection Hw as <-.
  apply ltb_zero_asym in Hneg. congruence.
Qed.

Lemma NoDup_map_filter {A B : Type} (f : A -> B) (P : A -> bool) (l : list A) :
  NoDup (map f l) -> NoDup (map f (List.filter P l)).
Proof.
  induction l as [|a l IH]; simpl; [auto|].
  intros [Ha Hl]%NoDup_cons. destruct (P a); simpl; [|auto].
  apply NoDup_cons. split; [|auto].
  intros Hin. apply Ha.
  apply list_elem_of_In, in_map_iff in Hin as (x & Hx & [Hin _]%filter_In).
  apply list_elem_of_In, in_map_iff. eauto.
Qed.

(** The debtors have pairwise distinct names, and so have the creditors. *)
Lemma partition_names_NoDup (expenses : list Expense.t) :
  NoDup (map Party.name (initial_debtors (accumulate expenses)))
  /\ NoDup (map Party.name (initial_creditors (accumulate expenses))).
Proof.
  rewrite initial_debtors_spec, initial_creditors_spec, !map_map. simpl.
  split; apply NoDup_map_filter, Object_entries_NoDup.
Qed.

(** No name is entered twice, nor as a creditor and as a debtor. *)
Lemma partition_disjoint (expenses : list Expense.t) :
  NoDup (map Party.name (initial_creditors (accumulate expenses)
                         ++ initial_debtors (accumulate expenses))).
Proof.
  rewrite map_app. apply NoDup_app.
  destruct (partition_names_NoDup expenses) as [Hd Hc].
  split; [exact Hc|]. split; [|exact Hd].
  intros name Hcr%creditor_names_spec Hde%debtor_names_spec.
  now apply (debtor_not_creditor _ _ Hde).
Qed.

(** Every transfer goes from a name of the debtor array to a name of the
    creditor array: the loop never changes the names. *)
Lemma iterations_names (n : nat) (st : LoopState) :
  map Party.name (debtors (iterations n st)) = map Party.name (debtors st)
  /\ map Party.name (creditors (iterations n st)) = map Party.name (creditors st).
Proof.
  revert st. induction n as [|n IH]; intros st; simpl; [auto|].
  destruct (loop_condition st); [|auto].
  destruct (IH (loop_body st)) as [-> ->].
  now rewrite loop_body_debtor_names, loop_body_creditor_names.
Qed.

Lemma iterations_settlements (n : nat) (st : LoopState) :
  Forall (fun t => Settlement.from t ∈ map Party.name (debtors st)
                   /\ Settlement.to t ∈ map Party.name (creditors st))
         (settlements st) ->
  Forall (fun t => Settlement.from t ∈ map Party.name (debtors st)
                   /\ Settlement.to t ∈ map Party.name (creditors st))
         (settlements (iterations n st)).
Proof.
  revert st. induction n as [|n IH]; intros st H; simpl; [exact H|].
  destruct (loop_condition st) eqn:Hc; [|exact H].
  rewrite <- loop_body_debtor_names, <- loop_body_creditor_names.
  apply IH. rewrite loop_body_debtor_names, loop_body_creditor_names.
  apply loop_condition_true in Hc as (d & c & Hd & Hcr).
  rewrite (loop_body_settlements st d c Hd Hcr).
  apply Forall_app. split; [exact H|]. constructor; [|constructor]. simpl.
  split; apply list_elem_of_In, in_map, list_elem_of_In;
    eapply list_elem_of_lookup_2; eassumption.
Qed.

(** The transfers pushed so far name debtors as payers and creditors as
    payees. *)
Lemma emitted_endpoints (n : nat) (expenses : list Expense.t) :
  Forall (fun t => is_debtor (accumulate expenses) (Settlement.from t)
                   /\ is_creditor (accumulate expenses) (Settlement.to t))
         (emitted n expenses).
Proof.
  unfold emitted.
  pose proof (iterations_settlements n (loop_start (accumulate expenses))) as H.
  simpl in H. specialize (H (Forall_nil_2 _)).
  eapply Forall_impl; [exact H|]. intros t [Hf Ht]. simpl in *.
  split; [now apply debtor_names_spec|now apply creditor_names_spec].
Qed.

(* ===================================================================== *)
(** * What [calculateSettlements] returns *)
(* ===================================================================== *)

Lemma calculateSettlements_Some (fuel : nat) (expenses : list Expense.t)
    (r : Result.t) :
  calculateSettlements fuel expenses = Some r ->
  loop_condition (iterations fuel (loop_start (accumulate expenses))) = false
  /\ Result.balances r = accumulate expenses
  /\ Result.settlements r = emitted fuel expenses.
Proof.
  unfold calculateSettlements, emitted.
  destruct (loop_condition _); [discriminate|]. intros [= <-]. auto.
Qed.

Lemma iterations_add (n m : nat) (st : LoopState) :
  iterations (n + m) st = iterations m (iterations n st).
Proof.
  revert st. induction n as [|n IH]; intros st; simpl; [reflexivity|].
  destruct (loop_condition st) eqn:Hc; [apply IH|].
  now rewrite iterations_exited.
Qed.

(** Once the loop has ended, more fuel changes nothing: the result does
    not depend on the fuel that sufficed. *)
Lemma calculateSettlements_more_fuel (fuel extra : nat)
    (expenses : list Expense.t) (r : Result.t) :
  calculateSettlements fuel expenses = Some r ->
  calculateSettlements (fuel + extra) expenses = Some r.
Proof.
  unfold calculateSettlements. rewrite iterations_add.
  destruct (loop_condition (iterations fuel _)) eqn:Hc; [discriminate|].
  now rewrite (iterations_exited extra _ Hc), Hc.
Qed.

(** X10. [calculateSettlements] returns within as many passes of the loop
    as there are debtors and creditors, or it never returns, whatever the
    fuel. *)
Lemma calculateSettlements_returns_or_never (expenses : list Expense.t) :
  let balances := accumulate expenses in
  (exists r, calculateSettlements
               (length (initial_debtors balances)
                + length (initial_creditors balances)) expenses = Some r)
  \/ (forall fuel, calculateSettlements fuel expenses = None).
Proof.
  intros balances.
  destruct (loop_ends_or_never (loop_start balances)) as [(n & Hn & He)|[_ Hnever]].
  - left. unfold cursor_room in Hn. simpl in Hn. rewrite !Nat.sub_0_r in Hn.
    assert (Hr : calculateSettlements n expenses
                 = Some (Result.mk balances (emitted n expenses))).
    { unfold calculateSettlements. fold balances. now rewrite He. }
    eexists.
    replace (length (initial_debtors balances) + length (initial_creditors balances))%nat
      with (n + (length (initial_debtors balances)
                 + length (initial_creditors balances) - n))%nat by lia.
    apply calculateSettlements_more_fuel, Hr.
  - right. intros fuel. unfold calculateSettlements. fold balances.
    now rewrite Hnever.
Qed.

(* ===================================================================== *)
(** * Properties of the transfers *)
(* ===================================================================== *)

(** C8. Every transfer pushed by the matching loop goes from a name whose
    rounded balance is below zero to a name whose rounded balance is above
    zero; no name is both, so the two ends of a transfer differ. This holds
    for the transfers pushed after any number of passes, hence for those
    [calculateSettlements] returns. *)
Theorem transfer_endpoints_distinct (fuel : nat) (expenses : list Expense.t) :
  Forall (fun t => Settlement.from t <> Settlement.to t
                   /\ is_debtor (accumulate expenses) (Settlement.from t)
                   /\ is_creditor (accumulate expenses) (Settlement.to t))
         (emitted fuel expenses)
  /\ (forall name, ~ (is_debtor (accumulate expenses) name
                      /\ is_creditor (accumulate expenses) name))
  /\ (forall r, calculateSettlements fuel expenses = Some r ->
                Result.settlements r = emitted fuel expenses).
Proof.
  split; [|split].
  - eapply Forall_impl; [apply emitted_endpoints|].
    intros t [Hd Hc]. split; [|auto].
    intros E. rewrite <- E in Hc. now apply (debtor_not_creditor _ _ Hd).
  - intros name [Hd Hc]. now apply (debtor_not_creditor _ _ Hd).
  - intros r Hr. now apply calculateSettlements_Some in Hr.
Qed.

(** C10. A name whose rounded balance is exactly zero is neither the payer
    nor the payee of any transfer. Whatever the balances are, the payers
    are names of the debtor array and the payees names of the creditor
    array, as the partition filled them, and these transfers are the ones
    [calculateSettlements] returns. *)
Theorem settled_name_in_no_transfer (fuel : nat) (expenses : list Expense.t) :
  (forall name balance,
      own (accumulate expenses) name = Some balance ->
      (rounded balance =? 0) = true ->
      Forall (fun t => Settlement.from t <> name /\ Settlement.to t <> name)
             (emitted fuel expenses))
  /\ Forall (fun t =>
               Settlement.from t
                 ∈ map Party.name (initial_debtors (accumulate expenses))
               /\ Settlement.to t
                    ∈ map Party.name (initial_creditors (accumulate expenses)))
            (emitted fuel expenses)
  /\ (forall r, calculateSettlements fuel expenses = Some r ->
                Result.settlements r = emitted fuel expenses).
Proof.
  split; [|split].
  - intros name balance Hown Hzero.
    apply eqb_zero_not_ltb in Hzero as [Hneg Hpos].
    eapply Forall_impl; [apply emitted_endpoints|].
    intros t [(v & Hv & Hd) (w & Hw & Hc)].
    split; intros E; rewrite E in *; congruence.
  - eapply Forall_impl; [apply emitted_endpoints|].
    intros t [Hd Hc].
    split; [now apply debtor_names_spec|now apply creditor_names_spec].
  - intros r Hr. now apply calculateSettlements_Some in Hr.
Qed.

Lemma settled_name_in_no_transfer_witness :
  let expenses := [expense (js "A") 1000 (js "A"); expense (js "B") 3000 (js "C")] in
  emitted 2 expenses
  = [Settlement.mk (js "C") (js "B") 30]
  /\ Forall (fun t => Settlement.from t <> js "A" /\ Settlement.to t <> js "A")
            (emitted 2 expenses).
Proof.
  split; [vm_compute; reflexivity|].
  apply (proj1 (settled_name_in_no_transfer 2 _) (js "A") (VNumber 0));
    vm_compute; reflexivity.
Defined.

Lemma partition_lengths (balances : object) :
  length (initial_debtors balances) = length (debtor_entries balances)
  /\ length (initial_creditors balances) = length (creditor_entries balances).
Proof.
  now rewrite initial_debtors_spec, initial_creditors_spec, !length_map.
Qed.

(** C7, as the code has it. When the matching loop ends, it has pushed no
    transfer if there is no debtor or no creditor, and otherwise at most
    (number of debtors + number of creditors - 1) transfers, a debtor being
    a name with rounded balance below zero and a creditor one with rounded
    balance above zero. *)
Theorem transfer_count_bound (fuel : nat) (expenses : list Expense.t)
    (r : Result.t) :
  calculateSettlements fuel expenses = Some r ->
  (length (debtor_entries (Result.balances r)) = 0%nat
   \/ length (creditor_entries (Result.balances r)) = 0%nat ->
   Result.settlements r = [])
  /\ (length (debtor_entries (Result.balances r)) <> 0%nat ->
      length (creditor_entries (Result.balances r)) <> 0%nat ->
      (Z.of_nat (length (Result.settlements r))
       <= Z.of_nat (length (debtor_entries (Result.balances r)))
          + Z.of_nat (length (creditor_entries (Result.balances r))) - 1)%Z).
Proof.
  intros (Hexit & -> & ->)%calculateSettlements_Some. unfold emitted.
  destruct (partition_lengths (accumulate expenses)) as [<- <-].
  set (st := loop_start (accumulate expenses)) in *.
  change (initial_debtors (accumulate expenses)) with (debtors st).
  change (initial_creditors (accumulate expenses)) with (creditors st).
  destruct (loop_condition st) eqn:Hc.
  - pose proof (iterations_count fuel st Hc Hexit) as Hn.
    change (i st) with 0%nat in Hn. change (j st) with 0%nat in Hn.
    change (settlements st) with (@nil Settlement.t) in Hn. simpl in Hn.
    unfold loop_condition in Hc. apply andb_true_iff in Hc.
    rewrite !Nat.ltb_lt in Hc. change (i st) with 0%nat in Hc.
    change (j st) with 0%nat in Hc.
    change (initial_debtors (accumulate expenses)) with (debtors st) in Hn.
    change (initial_creditors (accumulate expenses)) with (creditors st) in Hn.
    split; [intros; lia|]. intros _ _. lia.
  - rewrite (iterations_exited fuel st Hc). split; [reflexivity|].
    intros Hd Hcr. change (settlements st) with (@nil Settlement.t).
    change (length (@nil Settlement.t)) with 0%nat. lia.
Qed.

Lemma transfer_count_bound_witness :
  let expenses :=
    [expense (js "C1") 3000 (js "D1"); expense (js "C2") 1000 (js "D1");
     expense (js "C2") 1000 (js "D2")] in
  exists r, calculateSettlements 3 expenses = Some r
            /\ length (Result.settlements r) = 3%nat
            /\ length (debtor_entries (Result.balances r)) = 2%nat
            /\ length (creditor_entries (Result.balances r)) = 2%nat
            /\ (Z.of_nat (length (Result.settlements r))
                <= Z.of_nat (length (debtor_entries (Result.balances r)))
                   + Z.of_nat (length (creditor_entries (Result.balances r))) - 1)%Z.
Proof.
  intros expenses.
  set (r := {| Result.balances := accumulate expenses;
               Result.settlements := emitted 3 expenses |}).
  assert (H : calculateSettlements 3 expenses = Some r)
    by (vm_compute; reflexivity).
  assert (Hd : length (debtor_entries (Result.balances r)) = 2%nat)
    by (vm_compute; reflexivity).
  assert (Hc : length (creditor_entries (Result.balances r)) = 2%nat)
    by (vm_compute; reflexivity).
  exists r. split; [exact H|]. split; [vm_compute; reflexivity|].
  split; [exact Hd|]. split; [exact Hc|].
  refine (proj2 (transfer_count_bound 3 expenses r H) _ _);
    [rewrite Hd|rewrite Hc]; discriminate.
Defined.

(** C7 as stated fails where nobody owes and nobody is owed: no transfer
    is pushed, and zero is above 0 + 0 - 1. *)
Lemma transfer_count_bound_fails_without_parties :
  exists r, calculateSettlements 0 [] = Some r
            /\ ~ (Z.of_nat (length (Result.settlements r))
                  <= Z.of_nat (length (debtor_entries (Result.balances r)))
                     + Z.of_nat (length (creditor_entries (Result.balances r)))
                     - 1)%Z.
Proof.
  eexists. split; [reflexivity|]. vm_compute. intros H. now apply H.
Qed.

(* ===================================================================== *)
(** * Worked settlements *)
(* ===================================================================== *)

(** C5. One expense of 90.00 paid by A for A, B and C, created through
    [create] and read back: the balances are A: 60, B: -30, C: -30, in
    that order, and the transfers are B -> A 30 then C -> A 30. Two passes
    of the loop suffice, and any further fuel gives the same result. *)
Theorem single_expense_equal_split (extra : nat) (description : jsstring) :
  calculateSettlements (2 + extra)
    [create {| CreateExpenseDto.payerName := js "A";
               CreateExpenseDto.amount := 90;
               CreateExpenseDto.description := description;
               CreateExpenseDto.participants := [js "A"; js "B"; js "C"] |}]
  = Some {| Result.balances :=
              [(js "A", VNumber 60); (js "B", VNumber (-30));
               (js "C", VNumber (-30))];
            Result.settlements :=
              [Settlement.mk (js "B") (js "A") 30;
               Settlement.mk (js "C") (js "A") 30] |}.
Proof. apply calculateSettlements_more_fuel. vm_compute. reflexivity. Qed.

(** C6. Whenever the partition gives the debtors D1: 40, D2: 10 and the
    creditors C1: 30, C2: 20, in that order, the loop pushes D1 -> C1 30,
    D1 -> C2 10, D2 -> C2 10 and ends after these three passes with both
    cursors at the end of their arrays and every amount at zero. *)
Theorem greedy_matching_two_by_two (extra : nat) (expenses : list Expense.t)
    (D1 D2 C1 C2 : jsstring) :
  initial_debtors (accumulate expenses) = [Party.mk D1 40; Party.mk D2 10] ->
  initial_creditors (accumulate expenses) = [Party.mk C1 30; Party.mk C2 20] ->
  iterations (3 + extra) (loop_start (accumulate expenses))
  = {| debtors := [Party.mk D1 0; Party.mk D2 0];
       creditors := [Party.mk C1 0; Party.mk C2 0];
       i := 2; j := 2;
       settlements := [Settlement.mk D1 C1 30; Settlement.mk D1 C2 10;
                       Settlement.mk D2 C2 10] |}
  /\ calculateSettlements (3 + extra) expenses
     = Some {| Result.balances := accumulate expenses;
               Result.settlements :=
                 [Settlement.mk D1 C1 30; Settlement.mk D1 C2 10;
                  Settlement.mk D2 C2 10] |}.
Proof.
  intros Hd Hc.
  assert (H3 : iterations 3 (loop_start (accumulate expenses))
               = {| debtors := [Party.mk D1 0; Party.mk D2 0];
                    creditors := [Party.mk C1 0; Party.mk C2 0];
                    i := 2; j := 2;
                    settlements := [Settlement.mk D1 C1 30; Settlement.mk D1 C2 10;
                                    Settlement.mk D2 C2 10] |}).
  { unfold loop_start. rewrite Hd, Hc. vm_compute. reflexivity. }
  assert (He : loop_condition (iterations 3 (loop_start (accumulate expenses)))
               = false) by now rewrite H3.
  split.
  - now rewrite iterations_add, (iterations_exited extra _ He).
  - apply calculateSettlements_more_fuel. unfold calculateSettlements.
    now rewrite He, H3.
Qed.

Lemma greedy_matching_two_by_two_witness :
  let expenses :=
    [expense (js "C1") 3000 (js "D1"); expense (js "C2") 1000 (js "D1");
     expense (js "C2") 1000 (js "D2")] in
  initial_debtors (accumulate expenses)
  = [Party.mk (js "D1") 40; Party.mk (js "D2") 10]
  /\ initial_creditors (accumulate expenses)
     = [Party.mk (js "C1") 30; Party.mk (js "C2") 20]
  /\ calculateSettlements 3 expenses
     = Some {| Result.balances := accumulate expenses;
               Result.settlements :=
                 [Settlement.mk (js "D1") (js "C1") 30;
                  Settlement.mk (js "D1") (js "C2") 10;
                  Settlement.mk (js "D2") (js "C2") 10] |}.
Proof.
  split; [vm_compute; reflexivity|]. split; [vm_compute; reflexivity|].
  apply (greedy_matching_two_by_two 0); vm_compute; reflexivity.
Defined.

(* ===================================================================== *)
(** * The effect of one expense on one name *)
(* ===================================================================== *)

Lemma Get_ordinary (o : object) (name : jsstring) :
  ordinary name ->
  Get o name = match own o name with Some v => Value v | None => Undefined end.
Proof.
  intros [Hp Hf]. unfold Get. destruct (own o name); [reflexivity|].
  rewrite bool_decide_eq_false_2 by exact Hp. now rewrite Hf.
Qed.

Lemma own_overwrite_eq (o : object) (k : jsstring) (v w : jsval) :
  own o k = Some w -> own (overwrite o k v) k = Some v.
Proof.
  induction o as [|[k' u] o IH]; simpl; [discriminate|].
  case_bool_decide as E; simpl.
  - intros _. now rewrite bool_decide_eq_true_2.
  - intros H. rewrite bool_decide_eq_false_2 by exact E. auto.
Qed.

Lemma own_overwrite_ne (o : object) (k k' : jsstring) (v : jsval) :
  k' <> k -> own (overwrite o k v) k' = own o k'.
Proof.
  intros Hne. induction o as [|[k0 u] o IH]; simpl; [reflexivity|].
  case_bool_decide as E; simpl.
  - subst k0. now rewrite !bool_decide_eq_false_2 by congruence.
  - now rewrite IH.
Qed.

Lemma own_app (o : object) (k k' : jsstring) (v : jsval) :
  own (o ++ [(k, v)]) k'
  = match own o k' with
    | Some w => Some w
    | None => if bool_decide (k = k') then Some v else None
    end.
Proof.
  induction o as [|[k0 u] o IH]; simpl; [reflexivity|].
  destruct (bool_decide (k0 = k')); [reflexivity|exact IH].
Qed.

Lemma own_Put_eq (o : object) (k : jsstring) (v : jsval) :
  k <> proto_key -> own (Put o k v) k = Some v.
Proof.
  intros Hk. unfold Put. destruct (own o k) eqn:Ho.
  - eapply own_overwrite_eq, Ho.
  - rewrite bool_decide_eq_false_2 by exact Hk.
    rewrite own_app, Ho. now rewrite bool_decide_eq_true_2.
Qed.

Lemma own_Put_ne (o : object) (k k' : jsstring) (v : jsval) :
  k' <> k -> own (Put o k v) k' = own o k'.
Proof.
  intros Hne. unfold Put. destruct (own o k) eqn:Ho.
  - now apply own_overwrite_ne.
  - case_bool_decide; [reflexivity|].
    rewrite own_app. destruct (own o k'); [reflexivity|].
    now rewrite bool_decide_eq_false_2 by congruence.
Qed.

(** [addBalance] on an ordinary name: the property now holds what was
    there, reset to 0 when missing or falsy, plus the amount. *)
Lemma own_addBalance_eq (o : object) (name : jsstring) (amount : float) :
  ordinary name ->
  own (addBalance o name amount) name = Some (added (own o name) amount).
Proof.
  intros Hord. destruct (Hord) as [Hp _]. unfold addBalance, added.
  rewrite own_Put_eq by exact Hp. f_equal.
  rewrite (Get_ordinary o name Hord).
  destruct (ToBoolean _) eqn:Hb.
  - now rewrite (Get_ordinary o name Hord).
  - rewrite (Get_ordinary _ name Hord), own_Put_eq by exact Hp. reflexivity.
Qed.

(** [addBalance] touches no other name. *)
Lemma own_addBalance_ne (o : object) (name other : jsstring) (amount : float) :
  other <> name -> own (addBalance o name amount) other = own o other.
Proof.
  intros Hne. unfold addBalance.
  destruct (ToBoolean _); now rewrite ?own_Put_ne by exact Hne.
Qed.

Lemma own_debit_all (share : float) (listed : list jsstring) (o : object)
    (name : jsstring) :
  ordinary name ->
  own (fold_left (fun b p => addBalance b p share) listed o) name
  = Nat.iter (listings name listed) (fun held => Some (added held share))
      (own o name).
Proof.
  intros Hord. revert o. unfold listings.
  induction listed as [|p ps IH]; intros o; simpl; [reflexivity|].
  rewrite IH. case_bool_decide as E; simpl.
  - subst p. rewrite own_addBalance_eq by exact Hord.
    generalize (own o name). clear.
    induction (length _) as [|n IHn]; intros held; simpl; [reflexivity|].
    now rewrite IHn.
  - now rewrite own_addBalance_ne by congruence.
Qed.

Lemma float_neq (x y : float) : (x =? y) = false -> (x =? x) = true -> x <> y.
Proof. intros Hxy Hxx E. rewrite <- E in Hxy. congruence. Qed.

Lemma VNumber_inj (x y : float) : VNumber x = VNumber y -> x = y.
Proof. intros H. exact (f_equal ToNumber H). Qed.

Lemma Some_VNumber_inj (x y : float) :
  Some (VNumber x) = Some (VNumber y) -> x = y.
Proof.
  intros H. apply VNumber_inj.
  exact (f_equal (fun o => match o with Some v => v | None => VNumber x end) H).
Qed.

(** C1, as the code has it. [calculateSettlements] reads no weight: it
    divides the amount of a record by the number of parsed participant
    entries and debits each entry one such share, so an ordinary name listed
    k times is debited k shares, and the payer is credited the whole amount.
    In particular, for the single record paid by A, amount 30.00: listed as
    A,B,B the result is A: 20, B: -20 and the one transfer B -> A 20; listed
    as A:1,B:2 the entries are the names A:1 and B:2, each debited 15. *)
Theorem even_split_per_listing :
  (forall (balances : object) (e : Expense.t) (name : jsstring),
      ordinary name ->
      own (process_expense balances e) name
      = let listed := parsed_participants (Expense.participants e) in
        let share :=
          Expense.amount e / of_Z_exact (Z.of_nat (length listed)) in
        let debited :=
          Nat.iter (listings name listed)
            (fun held => Some (added held (- share))) (own balances name) in
        if (length listed =? 0)%nat then own balances name
        else if bool_decide (name = Expense.payerName e)
             then Some (added debited (Expense.amount e))
             else debited)
  /\ calculateSettlements 1 [expense (js "A") 3000 (js "A,B,B")]
     = Some {| Result.balances := [(js "A", VNumber 20); (js "B", VNumber (-20))];
               Result.settlements := [Settlement.mk (js "B") (js "A") 20] |}
  /\ calculateSettlements 2 [expense (js "A") 3000 (js "A:1,B:2")]
     = Some {| Result.balances :=
                 [(js "A:1", VNumber (-15)); (js "B:2", VNumber (-15));
                  (js "A", VNumber 30)];
               Result.settlements :=
                 [Settlement.mk (js "A:1") (js "A") 15;
                  Settlement.mk (js "B:2") (js "A") 15] |}.
Proof.
  split; [|split; vm_compute; reflexivity].
  intros balances e name Hord. cbv zeta. unfold process_expense.
  destruct (length _ =? 0)%nat; [reflexivity|].
  case_bool_decide as E.
  - subst name. rewrite own_addBalance_eq by exact Hord.
    now rewrite own_debit_all by exact Hord.
  - rewrite own_addBalance_ne by exact E.
    now rewrite own_debit_all by exact Hord.
Qed.

Lemma even_split_per_listing_witness :
  ordinary (js "B")
  /\ own (process_expense [] (expense (js "A") 3000 (js "A,B,B"))) (js "B")
     = Some (VNumber (-20)).
Proof.
  split; [split; vm_compute; [discriminate|reflexivity]|].
  rewrite (proj1 even_split_per_listing [] _ (js "B"));
    [vm_compute; reflexivity|split; vm_compute; [discriminate|reflexivity]].
Defined.

(** C1 as stated fails on the record it names: with the weights in the
    stored participants (A:1,B:2) A ends at 30 and B has no balance; with
    the names alone (A,B), which is what a client that strips the weights
    stores, A ends at 15. In neither case is the balance of A 20. *)
Lemma weighted_split_not_computed :
  ~ (exists fuel r,
        calculateSettlements fuel [expense (js "A") 3000 (js "A:1,B:2")] = Some r
        /\ own (Result.balances r) (js "A") = Some (VNumber 20)
        /\ own (Result.balances r) (js "B") = Some (VNumber (-20))
        /\ Result.settlements r = [Settlement.mk (js "B") (js "A") 20])
  /\ ~ (exists fuel r,
          calculateSettlements fuel [expense (js "A") 3000 (js "A,B")] = Some r
          /\ own (Result.balances r) (js "A") = Some (VNumber 20)
          /\ own (Result.balances r) (js "B") = Some (VNumber (-20))
          /\ Result.settlements r = [Settlement.mk (js "B") (js "A") 20]).
Proof.
  split; intros (fuel & r & Hr & HA & HB & Ht);
    apply calculateSettlements_Some in Hr as (_ & Hb & _);
    rewrite Hb in HB; vm_compute in HB; [discriminate|].
  apply Some_VNumber_inj in HB. revert HB.
  apply float_neq; vm_compute; reflexivity.
Qed.

(** The client posts the names without their weights: the field
    [A:1,B:2] is stored as [A,B], whatever the counts convert to. *)
Lemma client_submits_names_only (StringToNumber : jsstring -> float)
    (payer description : jsstring) (amount : float) :
  Expense.participants
    (create {| CreateExpenseDto.payerName := payer;
               CreateExpenseDto.amount := amount;
               CreateExpenseDto.description := description;
               CreateExpenseDto.participants :=
                 submitted_participants StringToNumber (js "A:1,B:2") |})
  = js "A,B".
Proof. reflexivity. Qed.

(* ===================================================================== *)
(** * Rounding *)
(* ===================================================================== *)

Lemma iterations_amounts (n : nat) (st : LoopState) :
  Forall (fun t => exists x, Settlement.amount t = round2 x) (settlements st) ->
  Forall (fun t => exists x, Settlement.amount t = round2 x)
         (settlements (iterations n st)).
Proof.
  revert st. induction n as [|n IH]; intros st H; simpl; [exact H|].
  destruct (loop_condition st) eqn:Hc; [|exact H].
  apply IH. apply loop_condition_true in Hc as (d & c & Hd & Hcr).
  rewrite (loop_body_settlements st d c Hd Hcr).
  apply Forall_app. split; [exact H|].
  constructor; [|constructor]. simpl. eauto.
Qed.

(** C2, as the code has it. The returned balances are the running totals
    as accumulated, not rounded. The rounding to two decimals is applied to
    a copy of each total, and that rounded value decides the partition: a
    name that has a balance is entered among the creditors exactly when its
    rounded total is above zero and among the debtors exactly when it is
    below zero, no name is entered twice, every creditor opens the matching
    with its rounded total and every debtor with the opposite of it. Each
    transfer amount is a rounding to two decimals as well. *)
Theorem rounding_feeds_the_matching (fuel : nat) (expenses : list Expense.t)
    (r : Result.t) :
  calculateSettlements fuel expenses = Some r ->
  Result.balances r = accumulate expenses
  /\ (forall name total,
         own (Result.balances r) name = Some total ->
         (name ∈ map Party.name (initial_creditors (Result.balances r))
          <-> (0 <? rounded total) = true)
         /\ (name ∈ map Party.name (initial_debtors (Result.balances r))
             <-> (rounded total <? 0) = true))
  /\ NoDup (map Party.name (initial_creditors (Result.balances r)
                            ++ initial_debtors (Result.balances r)))
  /\ Forall (fun p => exists total,
                 own (Result.balances r) (Party.name p) = Some total
                 /\ (0 <? rounded total) = true
                 /\ Party.amount p = rounded total)
            (initial_creditors (Result.balances r))
  /\ Forall (fun p => exists total,
                 own (Result.balances r) (Party.name p) = Some total
                 /\ (rounded total <? 0) = true
                 /\ Party.amount p = - rounded total)
            (initial_debtors (Result.balances r))
  /\ Forall (fun t => exists x, Settlement.amount t = round2 x)
            (Result.settlements r).
Proof.
  intros (_ & -> & ->)%calculateSettlements_Some.
  split; [reflexivity|]. split; [|split; [|split; [|split]]].
  - intros name total Hown. split.
    + rewrite creditor_names_spec. unfold is_creditor. split.
      * intros (v & Hv & Hpos). congruence.
      * intros Hpos. exists total. auto.
    + rewrite debtor_names_spec. unfold is_debtor. split.
      * intros (v & Hv & Hneg). congruence.
      * intros Hneg. exists total. auto.
  - apply partition_disjoint.
  - rewrite initial_creditors_spec. apply Forall_map, Forall_forall.
    intros [k v] [Hin Hr]%list_elem_of_In%filter_In. simpl in *.
    exists v. split; [|auto].
    apply NoDup_own; [apply accumulate_NoDup|].
    now apply Object_entries_elem_of, list_elem_of_In.
  - rewrite initial_debtors_spec. apply Forall_map, Forall_forall.
    intros [k v] [Hin Hr]%list_elem_of_In%filter_In. simpl in *.
    exists v. split; [|auto].
    apply NoDup_own; [apply accumulate_NoDup|].
    now apply Object_entries_elem_of, list_elem_of_In.
  - apply iterations_amounts. constructor.
Qed.

Lemma rounding_feeds_the_matching_witness :
  let expenses := [expense (js "A") 1000 (js "A,B,C")] in
  exists r,
    calculateSettlements 2 expenses = Some r
    /\ Result.balances r
       = [(js "A", VNumber 6.666666666666666);
          (js "B", VNumber (-3.3333333333333335));
          (js "C", VNumber (-3.3333333333333335))]
    /\ initial_creditors (Result.balances r) = [Party.mk (js "A") 6.67]
    /\ initial_debtors (Result.balances r)
       = [Party.mk (js "B") 3.33; Party.mk (js "C") 3.33]
    /\ (js "B" ∈ map Party.name (initial_debtors (Result.balances r))
        <-> (rounded (VNumber (-3.3333333333333335)) <? 0) = true)
    /\ Forall (fun t => exists x, Settlement.amount t = round2 x)
              (Result.settlements r).
Proof.
  intros expenses.
  set (r := {| Result.balances := accumulate expenses;
               Result.settlements := emitted 2 expenses |}).
  assert (H : calculateSettlements 2 expenses = Some r)
    by (vm_compute; reflexivity).
  destruct (rounding_feeds_the_matching 2 expenses r H)
    as (_ & Hdecides & _ & _ & _ & Hamounts).
  exists r. split; [exact H|].
  split; [vm_compute; reflexivity|]. split; [vm_compute; reflexivity|].
  split; [vm_compute; reflexivity|]. split; [|exact Hamounts].
  apply (Hdecides (js "B") (VNumber (-3.3333333333333335))).
  vm_compute; reflexivity.
Defined.

(** C2 as stated fails: 10.00 paid by A for A, B and C leaves B at
    -3.3333333333333335 in the returned balances, which is not its
    two-decimal rounding -3.33. *)
Lemma returned_balances_not_rounded :
  exists r,
    calculateSettlements 2 [expense (js "A") 1000 (js "A,B,C")] = Some r
    /\ own (Result.balances r) (js "B") = Some (VNumber (-3.3333333333333335))
    /\ rounded (VNumber (-3.3333333333333335)) = -3.33
    /\ ~ Forall (fun kv => two_decimal kv.2) (Result.balances r).
Proof.
  eexists. split; [vm_compute; reflexivity|].
  split; [vm_compute; reflexivity|]. split; [vm_compute; reflexivity|].
  intros H. apply Forall_cons in H as [_ H]. apply Forall_cons in H as [H _].
  unfold two_decimal in H. vm_compute in H. apply VNumber_inj in H.
  revert H. apply float_neq; vm_compute; reflexivity.
Qed.

(* ===================================================================== *)
(** * Where the code departs from the intended behaviour *)
(* ===================================================================== *)

(** C3 fails on the code. Three expenses, 0.10 paid by C1 for D1, 0.20 by
    C2 for D1 and 0.50 by C3 for D2: after D1 -> C1, D1 is left with
    0.3 - 0.1 = 0.19999999999999998, which settles all of D1 but leaves C2
    with 0.2 - 0.19999999999999998 > 0, so the next pass pushes D2 -> C2
    with amount 0. *)
Theorem residue_yields_zero_transfer :
  exists r,
    calculateSettlements 4
      [expense (js "C1") 10 (js "D1"); expense (js "C2") 20 (js "D1");
       expense (js "C3") 50 (js "D2")] = Some r
    /\ Result.settlements r
       = [Settlement.mk (js "D1") (js "C1") 0.1;
          Settlement.mk (js "D1") (js "C2") 0.2;
          Settlement.mk (js "D2") (js "C2") 0;
          Settlement.mk (js "D2") (js "C3") 0.5]
    /\ ~ Forall (fun t => (0 <? Settlement.amount t) = true)
                (Result.settlements r).
Proof.
  eexists. split; [vm_compute; reflexivity|]. split; [reflexivity|].
  intros H. do 2 apply Forall_cons in H as [_ H].
  apply Forall_cons in H as [H _]. vm_compute in H. discriminate.
Qed.

(** C4 fails on the code. 90.00 paid by [__proto__] for A, B and C: the
    debits reach A, B and C, the credit is lost in the inherited accessor,
    and the rounded balances add up to -90, far from zero. *)
Theorem proto_payer_loses_credit :
  exists r,
    calculateSettlements 0 [expense (js "__proto__") 9000 (js "A,B,C")] = Some r
    /\ Result.balances r
       = [(js "A", VNumber (-30)); (js "B", VNumber (-30));
          (js "C", VNumber (-30))]
    /\ (rounded_total (Result.balances r) == - (90 # 1))%Q
    /\ ~ conserved (Result.balances r).
Proof.
  eexists. split; [vm_compute; reflexivity|]. split; [reflexivity|].
  split; [vm_compute; reflexivity|].
  intros H. vm_compute in H. now apply H.
Qed.

(* ===================================================================== *)
(** * Storing and reading back the participants *)
(* ===================================================================== *)

Lemma split_no_separator (sep : N) (s : jsstring) :
  sep ∉ s -> split sep s = [s].
Proof.
  induction s as [|c s IH]; [reflexivity|].
  intros [Hc Hs]%not_elem_of_cons. simpl.
  destruct (N.eqb_spec c sep) as [E|_]; [congruence|].
  now rewrite IH.
Qed.

Lemma split_app (sep : N) (s r : jsstring) :
  sep ∉ s -> split sep (s ++ sep :: r) = s :: split sep r.
Proof.
  induction s as [|c s IH]; simpl.
  - intros _. now rewrite N.eqb_refl.
  - intros [Hc Hs]%not_elem_of_cons.
    destruct (N.eqb_spec c sep) as [E|_]; [congruence|].
    now rewrite IH.
Qed.

(** Splitting what [join] produced gives the array back, when no element
    holds the separator and the array is not empty. *)
Lemma split_join (sep : N) (a : list jsstring) :
  Forall (fun s => sep ∉ s) a -> a <> [] -> split sep (join sep a) = a.
Proof.
  induction a as [|s a IH]; [congruence|].
  intros [Hs Ha]%Forall_cons _. destruct a as [|s' a].
  - simpl. now apply split_no_separator.
  - change (join sep (s :: s' :: a)) with (s ++ sep :: join sep (s' :: a)).
    rewrite split_app by exact Hs. f_equal. now apply IH.
Qed.

Lemma trimStart_id (s : jsstring) :
  (forall c, head s = Some c -> is_whitespace c = false) -> trimStart s = s.
Proof. destruct s as [|c s]; simpl; [reflexivity|]. intros H. now rewrite H. Qed.

Lemma head_rev (s : jsstring) : head (rev s) = last s.
Proof.
  induction s as [|c s _] using rev_ind; [reflexivity|].
  now rewrite rev_app_distr, last_snoc.
Qed.

(** [trim] leaves a string with no whitespace at either end as it is. *)
Lemma trim_id (s : jsstring) :
  (forall c, head s = Some c -> is_whitespace c = false) ->
  (forall c, last s = Some c -> is_whitespace c = false) ->
  trim s = s.
Proof.
  intros Hh Hl. unfold trim, trimEnd. rewrite (trimStart_id s Hh).
  rewrite trimStart_id; [apply rev_involutive|].
  intros c. rewrite head_rev. apply Hl.
Qed.

(** C9. An array of participants whose entries are not empty, hold no
    comma and have no whitespace at either end is read back by
    [calculateSettlements] exactly as [create] was given it, in order. *)
Theorem participants_round_trip (dto : CreateExpenseDto.t) :
  Forall storable (CreateExpenseDto.participants dto) ->
  parsed_participants (Expense.participants (create dto))
  = CreateExpenseDto.participants dto.
Proof.
  simpl. generalize (CreateExpenseDto.participants dto). clear dto.
  intros a Ha. unfold parsed_participants.
  destruct a as [|s a]; [reflexivity|].
  rewrite split_join; [| |discriminate].
  - induction Ha as [|x l (Hne & _ & Hh & Hl) _ IH]; [reflexivity|].
    simpl. rewrite (trim_id x Hh Hl).
    destruct x; [congruence|]. simpl. now rewrite IH.
  - eapply Forall_impl; [exact Ha|]. now intros x (_ & Hc & _).
Qed.

Lemma participants_round_trip_witness :
  let dto :=
    {| CreateExpenseDto.payerName := js "Alice";
       CreateExpenseDto.amount := 42;
       CreateExpenseDto.description := js "dinner";
       CreateExpenseDto.participants :=
         [js "Alice"; js "Bob Smith"; js "Carol:2"] |} in
  Expense.participants (create dto) = js "Alice,Bob Smith,Carol:2"
  /\ parsed_participants (Expense.participants (create dto))
     = [js "Alice"; js "Bob Smith"; js "Carol:2"].
Proof.
  split; [reflexivity|].
  apply (participants_round_trip
           {| CreateExpenseDto.payerName := js "Alice";
              CreateExpenseDto.amount := 42;
              CreateExpenseDto.description := js "dinner";
              CreateExpenseDto.participants :=
                [js "Alice"; js "Bob Smith"; js "Carol:2"] |}).
  repeat constructor; try discriminate;
    try (intros c [= <-]; reflexivity);
    intros H; vm_compute in H; repeat (apply elem_of_cons in H as [H|H]; [discriminate H|]);
    inversion H.
Defined.
(* ===================================================================== *)
(** * What the parsed participants look like *)
(* ===================================================================== *)

Lemma split_nonempty (sep : N) (s : jsstring) : split sep s <> [].
Proof.
  destruct s as [|c s]; simpl; [discriminate|].
  destruct (c =? sep)%N; [discriminate|]. destruct (split sep s); discriminate.
Qed.

(** The pieces of a split hold the code units of the string other than the
    separator, and nothing else. *)
Lemma split_pieces (sep : N) (s : jsstring) (c : N) :
  (exists p, p ∈ split sep s /\ c ∈ p) <-> c ∈ s /\ c <> sep.
Proof.
  induction s as [|a s IH]; simpl.
  - split.
    + intros (p & Hp & Hc). apply list_elem_of_singleton in Hp. subst p.
      inversion Hc.
    + intros [Hc _]. inversion Hc.
  - destruct (N.eqb_spec a sep) as [->|Hne].
    + split.
      * intros (p & [->|Hp]%elem_of_cons & Hc); [inversion Hc|].
        destruct (proj1 IH) as [H1 H2]; [eauto|]. split; [now right|exact H2].
      * intros [[->|Hc]%elem_of_cons Hsep]; [congruence|].
        destruct (proj2 IH (conj Hc Hsep)) as (p & Hp & Hcp).
        exists p. split; [now right|exact Hcp].
    + destruct (split sep s) as [|q qs] eqn:E; [now apply split_nonempty in E|].
      split.
      * intros (p & [->|Hp]%elem_of_cons & Hc).
        -- apply elem_of_cons in Hc as [->|Hc]; [split; [left|exact Hne]|].
           destruct (proj1 IH) as [H1 H2]; [exists q; split; [left|exact Hc]|].
           split; [now right|exact H2].
        -- destruct (proj1 IH) as [H1 H2]; [exists p; split; [now right|exact Hc]|].
           split; [now right|exact H2].
      * intros [[->|Hc]%elem_of_cons Hsep].
        -- exists (a :: q). split; left.
        -- destruct (proj2 IH (conj Hc Hsep)) as (p & [->|Hp]%elem_of_cons & Hcp).
           ++ exists (a :: q). split; [left|now right].
           ++ exists p. split; [now right|exact Hcp].
Qed.

Lemma trimStart_suffix (s : jsstring) : exists pre, s = pre ++ trimStart s.
Proof.
  induction s as [|c s [pre IH]]; simpl; [now exists []|].
  destruct (is_whitespace c).
  - exists (c :: pre). simpl. now f_equal.
  - now exists [].
Qed.

Lemma trimStart_head (s : jsstring) (c : N) :
  head (trimStart s) = Some c -> is_whitespace c = false.
Proof.
  induction s as [|a s IH]; simpl; [discriminate|].
  destruct (is_whitespace a) eqn:E; [exact IH|].
  simpl. now intros [= <-].
Qed.

Lemma trimEnd_prefix (s : jsstring) : exists suf, s = trimEnd s ++ suf.
Proof.
  unfold trimEnd. destruct (trimStart_suffix (rev s)) as [pre Hp].
  exists (rev pre). rewrite <- rev_app_distr, <- Hp. symmetry. apply rev_involutive.
Qed.

Lemma last_rev (s : jsstring) : last (rev s) = head s.
Proof. destruct s as [|c s]; [reflexivity|]. simpl. apply last_snoc. Qed.

Lemma trimEnd_last (s : jsstring) (c : N) :
  last (trimEnd s) = Some c -> is_whitespace c = false.
Proof. unfold trimEnd. rewrite last_rev. apply trimStart_head. Qed.

(** [trim] returns a string with no whitespace at either end, made of code
    units of its argument. *)
Lemma trim_ends (s : jsstring) :
  (forall c, head (trim s) = Some c -> is_whitespace c = false)
  /\ (forall c, last (trim s) = Some c -> is_whitespace c = false)
  /\ (forall c, c ∈ trim s -> c ∈ s).
Proof.
  unfold trim. split; [|split].
  - intros c Hc. destruct (trimEnd_prefix (trimStart s)) as [suf Hs].
    apply (trimStart_head s). rewrite Hs.
    destruct (trimEnd (trimStart s)); [discriminate|exact Hc].
  - apply trimEnd_last.
  - intros c Hc. destruct (trimEnd_prefix (trimStart s)) as [suf Hs].
    destruct (trimStart_suffix s) as [pre Hp].
    rewrite Hp, Hs. apply elem_of_app. right. apply elem_of_app. now left.
Qed.

Lemma nonempty_true (s : jsstring) : nonempty s = true <-> s <> [].
Proof. destruct s; simpl; split; congruence. Qed.

Lemma parsed_join (a : list jsstring) :
  Forall storable a -> parsed_participants (join comma a) = a.
Proof.
  intros Ha. unfold parsed_participants.
  destruct a as [|s a]; [reflexivity|].
  rewrite split_join; [| |discriminate].
  - induction Ha as [|x l (Hne & _ & Hh & Hl) _ IH]; [reflexivity|].
    simpl. rewrite (trim_id x Hh Hl).
    destruct x; [congruence|]. simpl. now rewrite IH.
  - eapply Forall_impl; [exact Ha|]. now intros x (_ & Hc & _).
Qed.

(** X1. Whatever the stored participants column holds, every name
    [calculateSettlements] parses from it is not empty, holds no comma and
    has no whitespace at either end; joined with commas as [create] does and
    parsed once more, the names come back the same, in the same order. *)
Theorem parsed_participants_storable (stored : jsstring) :
  Forall storable (parsed_participants stored)
  /\ parsed_participants (join comma (parsed_participants stored))
     = parsed_participants stored.
Proof.
  assert (H : Forall storable (parsed_participants stored)).
  { unfold parsed_participants. apply Forall_forall. intros name Hin.
    apply list_elem_of_In, filter_In in Hin as [Hin Hne].
    apply in_map_iff in Hin as (piece & <- & Hpiece).
    destruct (trim_ends piece) as (Hh & Hl & Hsub).
    split; [now apply nonempty_true|]. split; [|split; assumption].
    intros Hc. apply Hsub in Hc.
    destruct (proj1 (split_pieces comma stored comma)) as [_ Hneq].
    - exists piece. split; [now apply list_elem_of_In|exact Hc].
    - now apply Hneq. }
  split; [exact H|now apply parsed_join].
Qed.

Lemma trimStart_blank (s : jsstring) :
  Forall (fun c => is_whitespace c = true) s -> trimStart s = [].
Proof.
  induction 1 as [|c s Hc _ IH]; simpl; [reflexivity|]. now rewrite Hc.
Qed.

Lemma trimStart_keeps (s : jsstring) (c : N) :
  c ∈ s -> is_whitespace c = false -> c ∈ trimStart s.
Proof.
  intros Hin Hc. induction s as [|a s IH]; simpl; [inversion Hin|].
  destruct (is_whitespace a) eqn:E; [|exact Hin].
  apply elem_of_cons in Hin as [->|Hin]; [congruence|auto].
Qed.

Lemma trim_keeps (s : jsstring) (c : N) :
  c ∈ s -> is_whitespace c = false -> c ∈ trim s.
Proof.
  intros Hin Hc. unfold trim, trimEnd.
  apply list_elem_of_In, in_rev, list_elem_of_In. rewrite rev_involutive.
  apply trimStart_keeps; [|exact Hc].
  apply list_elem_of_In, in_rev. rewrite rev_involutive.
  apply list_elem_of_In. now apply trimStart_keeps.
Qed.

(** A participants column is read as no participant at all exactly when it
    holds nothing but commas and whitespace. *)
Lemma parsed_nil_iff (stored : jsstring) :
  parsed_participants stored = []
  <-> Forall (fun c => c = comma \/ is_whitespace c = true) stored.
Proof.
  unfold parsed_participants. split.
  - intros Hnil. apply Forall_forall. intros c Hc.
    destruct (decide (c = comma)) as [->|Hne]; [now left|].
    destruct (is_whitespace c) eqn:Hw; [now right|]. exfalso.
    destruct (proj2 (split_pieces comma stored c) (conj Hc Hne))
      as (p & Hp & Hcp).
    assert (Hin : In (trim p)
                    (List.filter nonempty (map trim (split comma stored)))).
    { apply filter_In. split.
      - apply in_map. now apply list_elem_of_In.
      - apply nonempty_true. intros E.
        pose proof (trim_keeps p c Hcp Hw) as H. rewrite E in H. inversion H. }
    rewrite Hnil in Hin. exact Hin.
  - intros Hall.
    assert (Hp : Forall (fun p => nonempty (trim p) = false) (split comma stored)).
    { apply Forall_forall. intros p Hp.
      assert (Hws : Forall (fun c => is_whitespace c = true) p).
      { apply Forall_forall. intros c Hc.
        destruct (proj1 (split_pieces comma stored c)) as [Hin Hne]; [eauto|].
        rewrite Forall_forall in Hall. destruct (Hall c Hin); [contradiction|auto]. }
      unfold trim. now rewrite (trimStart_blank p Hws). }
    induction Hp as [|p ps Hp _ IH]; simpl; [reflexivity|].
    now rewrite Hp.
Qed.

(** X2. An expense whose participants column holds nothing but commas and
    whitespace is skipped whole: no balance changes, and the payer is not
    credited either. Only such columns parse to no participant. *)
Theorem blank_participants_skipped (balances : object) (e : Expense.t) :
  (parsed_participants (Expense.participants e) = []
   <-> Forall (fun c => c = comma \/ is_whitespace c = true)
         (Expense.participants e))
  /\ (parsed_participants (Expense.participants e) = [] ->
      process_expense balances e = balances).
Proof.
  split; [apply parsed_nil_iff|].
  intros H. unfold process_expense. now rewrite H.
Qed.

Lemma blank_participants_skipped_witness :
  process_expense [(js "A", VNumber 5)] (expense (js "B") 1000 (js " , ,, "))
  = [(js "A", VNumber 5)].
Proof.
  apply (proj2 (blank_participants_skipped [(js "A", VNumber 5)]
                  (expense (js "B") 1000 (js " , ,, ")))).
  reflexivity.
Defined.

(* ===================================================================== *)
(** * Which names the balances object holds *)
(* ===================================================================== *)

Lemma own_debit_all_ne (share : float) (listed : list jsstring) (o : object)
    (name : jsstring) :
  name ∉ listed ->
  own (fold_left (fun b p => addBalance b p share) listed o) name = own o name.
Proof.
  revert o. induction listed as [|p ps IH]; intros o Hn; simpl; [reflexivity|].
  apply not_elem_of_cons in Hn as [Hne Hn].
  rewrite IH by exact Hn. now apply own_addBalance_ne.
Qed.

Lemma process_expense_frame (balances : object) (e : Expense.t)
    (name : jsstring) :
  name <> Expense.payerName e ->
  name ∉ parsed_participants (Expense.participants e) ->
  own (process_expense balances e) name = own balances name.
Proof.
  intros Hp Hl. unfold process_expense.
  destruct (length _ =? 0)%nat; [reflexivity|].
  rewrite own_addBalance_ne by exact Hp. now apply own_debit_all_ne.
Qed.

(** X3. An expense changes the balance of nobody but its payer and its
    parsed participants: every other name keeps the property it had, or
    keeps having none. *)
Theorem expense_touches_only_its_names (balances : object) (e : Expense.t)
    (name : jsstring) :
  name <> Expense.payerName e ->
  name ∉ parsed_participants (Expense.participants e) ->
  own (process_expense balances e) name = own balances name.
Proof.
  intros Hp Hl. unfold process_expense.
  destruct (length _ =? 0)%nat; [reflexivity|].
  rewrite own_addBalance_ne by exact Hp. now apply own_debit_all_ne.
Qed.

Lemma expense_touches_only_its_names_witness :
  own (process_expense [(js "Z", VNumber 7)] (expense (js "A") 3000 (js "A,B")))
      (js "Z")
  = Some (VNumber 7).
Proof.
  rewrite (expense_touches_only_its_names [(js "Z", VNumber 7)]
             (expense (js "A") 3000 (js "A,B")) (js "Z")).
  - reflexivity.
  - discriminate.
  - intros H. vm_compute in H.
    repeat (apply elem_of_cons in H as [H|H]; [discriminate H|]). inversion H.
Defined.

Lemma own_Put_keeps (o : object) (k k' : jsstring) (v : jsval) :
  is_Some (own o k') -> is_Some (own (Put o k v) k').
Proof.
  intros [w Hw]. destruct (decide (k' = k)) as [->|Hne].
  - unfold Put. rewrite Hw. exists v. eapply own_overwrite_eq, Hw.
  - rewrite own_Put_ne by exact Hne. now exists w.
Qed.

Lemma own_addBalance_keeps (o : object) (name k : jsstring) (amount : float) :
  is_Some (own o k) -> is_Some (own (addBalance o name amount) k).
Proof.
  intros H. unfold addBalance.
  destruct (ToBoolean _); auto using own_Put_keeps.
Qed.

Lemma own_debit_all_keeps (share : float) (listed : list jsstring) (o : object)
    (k : jsstring) :
  is_Some (own o k) ->
  is_Some (own (fold_left (fun b p => addBalance b p share) listed o) k).
Proof.
  revert o. induction listed as [|p ps IH]; intros o H; simpl;
    auto using own_addBalance_keeps.
Qed.

Lemma process_expense_keeps (balances : object) (e : Expense.t) (k : jsstring) :
  is_Some (own balances k) -> is_Some (own (process_expense balances e) k).
Proof.
  intros H. unfold process_expense. destruct (length _ =? 0)%nat; [exact H|].
  apply own_addBalance_keeps, own_debit_all_keeps, H.
Qed.

Lemma own_Put_proto (o : object) (k : jsstring) (v : jsval) :
  own o proto_key = None -> own (Put o k v) proto_key = None.
Proof.
  intros H. destruct (decide (proto_key = k)) as [<-|Hne].
  - unfold Put. rewrite H. now rewrite bool_decide_eq_true_2.
  - now rewrite own_Put_ne.
Qed.

Lemma own_addBalance_proto (o : object) (name : jsstring) (amount : float) :
  own o proto_key = None -> own (addBalance o name amount) proto_key = None.
Proof.
  intros H. unfold addBalance. destruct (ToBoolean _); auto using own_Put_proto.
Qed.

Lemma own_debit_all_proto (share : float) (listed : list jsstring) (o : object) :
  own o proto_key = None ->
  own (fold_left (fun b p => addBalance b p share) listed o) proto_key = None.
Proof.
  revert o. induction listed as [|p ps IH]; intros o H; simpl;
    auto using own_addBalance_proto.
Qed.

Lemma process_expense_proto (balances : object) (e : Expense.t) :
  own balances proto_key = None ->
  own (process_expense balances e) proto_key = None.
Proof.
  intros H. unfold process_expense. destruct (length _ =? 0)%nat; [exact H|].
  apply own_addBalance_proto, own_debit_all_proto, H.
Qed.

Lemma fold_process_names (expenses : list Expense.t) (balances : object)
    (k : jsstring) :
  is_Some (own (fold_left process_expense expenses balances) k) ->
  is_Some (own balances k) \/ named_by expenses k.
Proof.
  revert balances. induction expenses as [|e es IH]; intros b H; simpl in *;
    [now left|].
  destruct (IH _ H) as [Hb|(e' & Hin & Hne & Hk)].
  - destruct (decide (k = Expense.payerName e)) as [Hp|Hp];
      [|destruct (decide (k ∈ parsed_participants (Expense.participants e)))
          as [Hl|Hl]].
    + destruct (parsed_participants (Expense.participants e)) eqn:E.
      * left. unfold process_expense in Hb. now rewrite E in Hb.
      * right. exists e. split; [left|]. rewrite E. split; [discriminate|auto].
    + right. exists e. split; [left|]. split; [|auto].
      intros E. rewrite E in Hl. inversion Hl.
    + left. now rewrite process_expense_frame in Hb.
  - right. exists e'. split; [now right|auto].
Qed.

Lemma process_expense_adds (balances : object) (e : Expense.t) (k : jsstring) :
  ordinary k ->
  parsed_participants (Expense.participants e) <> [] ->
  k = Expense.payerName e \/ k ∈ parsed_participants (Expense.participants e) ->
  is_Some (own (process_expense balances e) k).
Proof.
  intros Hord Hne Hk. unfold process_expense.
  destruct (parsed_participants (Expense.participants e)) as [|p ps] eqn:E;
    [congruence|].
  change (length (p :: ps) =? 0)%nat with false. cbv iota.
  destruct (decide (k = Expense.payerName e)) as [->|Hp].
  - rewrite own_addBalance_eq by exact Hord. eauto.
  - destruct Hk as [Hk|Hk]; [contradiction|].
    apply own_addBalance_keeps.
    generalize (- (Expense.amount e / of_Z_exact (Z.of_nat (length (p :: ps)))))%float.
    intros share. revert balances Hk. generalize (p :: ps). clear - Hord.
    intros l. induction l as [|a l IH]; intros b Hk; [inversion Hk|]. simpl.
    apply elem_of_cons in Hk as [->|Hk]; [|auto].
    apply own_debit_all_keeps. rewrite own_addBalance_eq by exact Hord. eauto.
Qed.

Lemma fold_process_adds (expenses : list Expense.t) (balances : object)
    (k : jsstring) :
  ordinary k -> named_by expenses k ->
  is_Some (own (fold_left process_expense expenses balances) k).
Proof.
  intros Hord (e & Hin & Hne & Hk). revert balances.
  induction expenses as [|e' es IH]; intros b; [inversion Hin|]. simpl.
  apply elem_of_cons in Hin as [->|Hin]; [|auto].
  assert (H : is_Some (own (process_expense b e') k))
    by now apply process_expense_adds.
  clear - H. revert H. generalize (process_expense b e').
  induction es as [|x es IH]; intros o H; simpl; [exact H|].
  apply IH, process_expense_keeps, H.
Qed.

(** X4. The names of the returned balances are names the expenses
    mention: a name has a balance only if an expense that is not skipped has
    it as payer or parsed participant, and every such name that is no member
    of [Object.prototype] has one. [__proto__] never has. *)
Theorem balances_names (expenses : list Expense.t) (k : jsstring) :
  (is_Some (own (accumulate expenses) k) -> named_by expenses k)
  /\ (ordinary k -> named_by expenses k -> is_Some (own (accumulate expenses) k))
  /\ own (accumulate expenses) proto_key = None.
Proof.
  unfold accumulate. split; [|split].
  - intros H. destruct (fold_process_names _ _ _ H) as [[v Hv]|Hn];
      [discriminate|exact Hn].
  - intros Hord Hn. now apply fold_process_adds.
  - assert (H : own ([] : object) proto_key = None) by reflexivity.
    revert H. generalize ([] : object).
    induction expenses as [|e es IH]; intros b H; simpl;
      auto using process_expense_proto.
Qed.

(* ===================================================================== *)
(** * What the matching loop leaves behind *)
(* ===================================================================== *)

Lemma loop_body_passed_settled (st : LoopState) :
  passed_settled st -> passed_settled (loop_body st).
Proof.
  intros [Hd Hc]. unfold loop_body.
  destruct (debtors st !! i st) as [d|] eqn:Ed; [|now split].
  destruct (creditors st !! j st) as [c|] eqn:Ec; [|now split].
  pose proof (lookup_lt_Some _ _ _ Ed) as Li.
  pose proof (lookup_lt_Some _ _ _ Ec) as Lj.
  set (amount := Math_min (Party.amount d) (Party.amount c)).
  split; cbn [debtors creditors i j Party.amount].
  - intros a p Ha Hp.
    destruct (decide (a = i st)) as [->|Hne].
    + rewrite list_lookup_insert_eq in Hp by exact Li. injection Hp as <-.
      cbn [Party.amount].
      destruct (Party.amount d - amount =? 0)%float eqn:E; [reflexivity|lia].
    + rewrite list_lookup_insert_ne in Hp by congruence.
      apply (Hd a p); [|exact Hp].
      destruct (Party.amount d - amount =? 0)%float; lia.
  - intros b p Hb Hp.
    destruct (decide (b = j st)) as [->|Hne].
    + rewrite list_lookup_insert_eq in Hp by exact Lj. injection Hp as <-.
      cbn [Party.amount].
      destruct (Party.amount c - amount =? 0)%float eqn:E; [reflexivity|lia].
    + rewrite list_lookup_insert_ne in Hp by congruence.
      apply (Hc b p); [|exact Hp].
      destruct (Party.amount c - amount =? 0)%float; lia.
Qed.

Lemma iterations_passed_settled (n : nat) (st : LoopState) :
  passed_settled st -> passed_settled (iterations n st).
Proof.
  revert st. induction n as [|n IH]; intros st H; simpl; [exact H|].
  destruct (loop_condition st); [|exact H].
  apply IH, loop_body_passed_settled, H.
Qed.

(** X5. When the matching loop ends, one side is settled in full: every
    debtor has exactly 0 left to pay, or every creditor has exactly 0 left to
    receive. *)
Theorem one_side_settled (fuel : nat) (expenses : list Expense.t) :
  loop_condition (iterations fuel (loop_start (accumulate expenses))) = false ->
  Forall (fun p => (Party.amount p =? 0)%float = true)
         (debtors (iterations fuel (loop_start (accumulate expenses))))
  \/ Forall (fun p => (Party.amount p =? 0)%float = true)
            (creditors (iterations fuel (loop_start (accumulate expenses)))).
Proof.
  intros Hexit.
  destruct (iterations_passed_settled fuel (loop_start (accumulate expenses)))
    as [Hd Hc].
  { split; intros a p Ha; simpl in Ha; lia. }
  unfold loop_condition in Hexit. apply andb_false_iff in Hexit.
  rewrite !Nat.ltb_ge in Hexit. destruct Hexit as [Hi|Hj]; [left|right];
    apply Forall_lookup; intros a p Hp;
    pose proof (lookup_lt_Some _ _ _ Hp); [apply (Hd a)|apply (Hc a)];
    (lia || exact Hp).
Qed.

Lemma one_side_settled_witness :
  let st :=
    iterations 3
      (loop_start
         (accumulate [expense (js "A") 1000 (js "A,B,C");
                      expense (js "D") 100 (js "A")])) in
  debtors st = [Party.mk (js "B") 0; Party.mk (js "C") 0]
  /\ (Forall (fun p => (Party.amount p =? 0)%float = true) (debtors st)
      \/ Forall (fun p => (Party.amount p =? 0)%float = true) (creditors st)).
Proof.
  split; [vm_compute; reflexivity|].
  apply (one_side_settled 3
           [expense (js "A") 1000 (js "A,B,C"); expense (js "D") 100 (js "A")]).
  vm_compute. reflexivity.
Defined.

Lemma lookup_map {A B : Type} (f : A -> B) (l : list A) (k : nat) :
  map f l !! k = f <$> (l !! k).
Proof.
  revert k. induction l as [|a l IH]; intros [|k]; simpl; auto.
Qed.

Lemma loop_body_pairs_behind (st : LoopState) :
  NoDup (map Party.name (debtors st)) ->
  NoDup (map Party.name (creditors st)) ->
  loop_condition st = true ->
  (i st + j st < i (loop_body st) + j (loop_body st))%nat ->
  pairs_behind st -> pairs_behind (loop_body st).
Proof.
  intros Nd Nc (d & c & Hd & Hc)%loop_condition_true Hprog [Hnd Hall].
  unfold pairs_behind.
  rewrite loop_body_debtor_names, loop_body_creditor_names,
    (loop_body_settlements st d c Hd Hc).
  assert (Hi : map Party.name (debtors st) !! i st = Some (Party.name d))
    by now rewrite lookup_map, Hd.
  assert (Hj : map Party.name (creditors st) !! j st = Some (Party.name c))
    by now rewrite lookup_map, Hc.
  split.
  - rewrite map_app. apply NoDup_app. split; [exact Hnd|].
    split; [|apply NoDup_singleton].
    intros p Hp ->%list_elem_of_singleton.
    apply list_elem_of_In, in_map_iff in Hp as (t & Ht & Hin).
    rewrite Forall_forall in Hall.
    destruct (Hall t) as (a & b & Ha & Hb & Hab); [now apply list_elem_of_In|].
    unfold ends in Ht. simpl in Ht. injection Ht as Hf Hto.
    rewrite Hf in Ha. rewrite Hto in Hb.
    pose proof (NoDup_lookup _ _ _ _ Nd Ha Hi).
    pose proof (NoDup_lookup _ _ _ _ Nc Hb Hj). lia.
  - apply Forall_app. split.
    + eapply Forall_impl; [exact Hall|].
      intros t (a & b & Ha & Hb & Hab). exists a, b. repeat split; auto. lia.
    + constructor; [|constructor]. exists (i st), (j st). simpl. auto.
Qed.

Lemma iterations_pairs_behind (n : nat) (st : LoopState) :
  NoDup (map Party.name (debtors st)) ->
  NoDup (map Party.name (creditors st)) ->
  loop_condition (iterations n st) = false ->
  pairs_behind st -> pairs_behind (iterations n st).
Proof.
  revert st. induction n as [|n IH]; intros st Nd Nc Hexit H; simpl in *;
    [exact H|].
  destruct (loop_condition st) eqn:Hc; [|exact H].
  destruct (loop_body_progress st Hc) as [(_ & _ & Hprog)|Hst].
  - apply IH; [| |exact Hexit|].
    + now rewrite loop_body_debtor_names.
    + now rewrite loop_body_creditor_names.
    + now apply loop_body_pairs_behind.
  - apply (stuck_iterations n) in Hst. apply stuck_condition in Hst. congruence.
Qed.

(** X6. In what [calculateSettlements] returns, no two transfers have the
    same payer and the same payee: each debtor pays each creditor at most
    once. *)
Theorem one_transfer_per_pair (fuel : nat) (expenses : list Expense.t)
    (r : Result.t) :
  calculateSettlements fuel expenses = Some r ->
  NoDup (map ends (Result.settlements r)).
Proof.
  intros (Hexit & _ & ->)%calculateSettlements_Some. unfold emitted.
  destruct (partition_names_NoDup expenses) as [Nd Nc].
  apply (iterations_pairs_behind fuel (loop_start (accumulate expenses)));
    [exact Nd|exact Nc|exact Hexit|].
  split; [constructor|constructor].
Qed.

Lemma one_transfer_per_pair_witness :
  let expenses :=
    [expense (js "C1") 3000 (js "D1"); expense (js "C2") 1000 (js "D1");
     expense (js "C2") 1000 (js "D2")] in
  map ends (emitted 3 expenses)
  = [(js "D1", js "C1"); (js "D1", js "C2"); (js "D2", js "C2")]
  /\ NoDup (map ends (emitted 3 expenses)).
Proof.
  intros expenses. split; [vm_compute; reflexivity|].
  assert (H : calculateSettlements 3 expenses
              = Some {| Result.balances := accumulate expenses;
                        Result.settlements := emitted 3 expenses |})
    by (vm_compute; reflexivity).
  exact (one_transfer_per_pair 3 expenses _ H).
Defined.

(* ===================================================================== *)
(** * Who takes part in the transfers *)
(* ===================================================================== *)

Lemma loop_body_passed_paid (st : LoopState) :
  passed_paid st -> passed_paid (loop_body st).
Proof.
  intros [Hd Hc]. unfold loop_body.
  destruct (debtors st !! i st) as [d|] eqn:Ed; [|now split].
  destruct (creditors st !! j st) as [c|] eqn:Ec; [|now split].
  pose proof (lookup_lt_Some _ _ _ Ed) as Li.
  pose proof (lookup_lt_Some _ _ _ Ec) as Lj.
  set (amount := Math_min (Party.amount d) (Party.amount c)).
  split; cbn [debtors creditors i j settlements]; rewrite map_app;
    cbn [map Settlement.from Settlement.to].
  - intros a p Ha Hp. apply elem_of_app.
    destruct (decide (a = i st)) as [->|Hne].
    + rewrite list_lookup_insert_eq in Hp by exact Li. injection Hp as <-.
      right. left.
    + rewrite list_lookup_insert_ne in Hp by congruence.
      left. apply (Hd a p); [|exact Hp].
      destruct (_ =? 0)%float; lia.
  - intros b p Hb Hp. apply elem_of_app.
    destruct (decide (b = j st)) as [->|Hne].
    + rewrite list_lookup_insert_eq in Hp by exact Lj. injection Hp as <-.
      right. left.
    + rewrite list_lookup_insert_ne in Hp by congruence.
      left. apply (Hc b p); [|exact Hp].
      destruct (_ =? 0)%float; lia.
Qed.

Lemma iterations_passed_paid (n : nat) (st : LoopState) :
  passed_paid st -> passed_paid (iterations n st).
Proof.
  revert st. induction n as [|n IH]; intros st H; simpl; [exact H|].
  destruct (loop_condition st); [|exact H].
  apply IH, loop_body_passed_paid, H.
Qed.

(** X7. In what [calculateSettlements] returns, one side takes part in
    full: every debtor is the payer of some transfer, or every creditor is
    the payee of some transfer. *)
Theorem one_side_takes_part (fuel : nat) (expenses : list Expense.t)
    (r : Result.t) :
  calculateSettlements fuel expenses = Some r ->
  (forall name, is_debtor (Result.balances r) name ->
                name ∈ map Settlement.from (Result.settlements r))
  \/ (forall name, is_creditor (Result.balances r) name ->
                   name ∈ map Settlement.to (Result.settlements r)).
Proof.
  intros (Hexit & -> & ->)%calculateSettlements_Some. unfold emitted.
  set (st0 := loop_start (accumulate expenses)) in *.
  destruct (iterations_passed_paid fuel st0) as [Hd Hc].
  { split; intros a p Ha; simpl in Ha; lia. }
  destruct (iterations_names fuel st0) as [Nd Nc].
  unfold loop_condition in Hexit. apply andb_false_iff in Hexit.
  rewrite !Nat.ltb_ge in Hexit. destruct Hexit as [Hi|Hj]; [left|right];
    intros name Hn.
  - apply debtor_names_spec in Hn.
    change (initial_debtors (accumulate expenses)) with (debtors st0) in Hn.
    rewrite <- Nd in Hn.
    apply list_elem_of_In, in_map_iff in Hn as (p & <- & Hp).
    apply list_elem_of_In, list_elem_of_lookup in Hp as [a Ha].
    apply (Hd a p); [|exact Ha]. pose proof (lookup_lt_Some _ _ _ Ha). lia.
  - apply creditor_names_spec in Hn.
    change (initial_creditors (accumulate expenses)) with (creditors st0) in Hn.
    rewrite <- Nc in Hn.
    apply list_elem_of_In, in_map_iff in Hn as (p & <- & Hp).
    apply list_elem_of_In, list_elem_of_lookup in Hp as [b Hb].
    apply (Hc b p); [|exact Hb]. pose proof (lookup_lt_Some _ _ _ Hb). lia.
Qed.

Lemma one_side_takes_part_witness :
  let expenses :=
    [expense (js "A") 1000 (js "A,B,C"); expense (js "D") 100 (js "A")] in
  map ends (emitted 3 expenses)
  = [(js "B", js "A"); (js "C", js "A"); (js "C", js "D")]
  /\ ((forall name, is_debtor (accumulate expenses) name ->
                    name ∈ map Settlement.from (emitted 3 expenses))
      \/ (forall name, is_creditor (accumulate expenses) name ->
                       name ∈ map Settlement.to (emitted 3 expenses))).
Proof.
  intros expenses. split; [vm_compute; reflexivity|].
  assert (H : calculateSettlements 3 expenses
              = Some {| Result.balances := accumulate expenses;
                        Result.settlements := emitted 3 expenses |})
    by (vm_compute; reflexivity).
  exact (one_side_takes_part 3 expenses _ H).
Defined.

(* ===================================================================== *)
(** * What the client posts *)
(* ===================================================================== *)

Lemma ltb_leb (x y : float) : (x <? y)%float = true -> (x <=? y)%float = true.
Proof.
  rewrite FloatAxioms.ltb_spec, FloatAxioms.leb_spec. unfold SFltb, SFleb.
  destruct (SFcompare _ _) as [[| |]|]; congruence.
Qed.

Lemma Math_max_one (v : float) :
  PrimFloat.is_nan v = false -> (1 <=? Math_max 1 v)%float = true.
Proof.
  intros Hv. unfold Math_max. change (PrimFloat.is_nan 1) with false.
  rewrite Hv. simpl orb. cbv iota.
  destruct (1 <? v)%float eqn:E; [now apply ltb_leb|].
  destruct (v <? 1)%float; [reflexivity|].
  change (get_sign 1) with false. reflexivity.
Qed.

Section ClientFacts.

Variable StringToNumber : jsstring -> float.

Lemma parse_share_count (s : jsstring) :
  (1 <=? ParticipantShare.count (parse_share StringToNumber s))%float = true.
Proof.
  unfold parse_share. cbn [ParticipantShare.count].
  destruct (map trim (split colon s) !! 1%nat) as [rawCount|]; [|reflexivity].
  destruct (nonempty rawCount); [|reflexivity].
  apply Math_max_one.
  destruct (PrimFloat.is_zero _ || PrimFloat.is_nan _) eqn:E; [reflexivity|].
  now apply orb_false_iff in E as [_ E].
Qed.

Lemma parse_share_name (s : jsstring) :
  exists piece, piece ∈ split colon s
                /\ ParticipantShare.name (parse_share StringToNumber s)
                   = trim piece.
Proof.
  unfold parse_share. cbn [ParticipantShare.name].
  destruct (split colon s) as [|piece pieces] eqn:E;
    [now apply split_nonempty in E|].
  exists piece. split; [left|reflexivity].
Qed.

Lemma parsed_shares_facts (input : jsstring) :
  Forall (fun p => storable (ParticipantShare.name p)
                   /\ (colon ∉ ParticipantShare.name p)
                   /\ (1 <=? ParticipantShare.count p)%float = true)
         (parseParticipantsInput StringToNumber input).
Proof.
  unfold parseParticipantsInput. apply Forall_forall. intros p Hp.
  apply list_elem_of_In, filter_In in Hp as [Hp Hne].
  apply in_map_iff in Hp as (s & <- & Hs).
  apply filter_In in Hs as [Hs _].
  apply in_map_iff in Hs as (q & <- & Hq).
  destruct (parse_share_name (trim q)) as (piece & Hpiece & Hname).
  cbv beta in Hne. rewrite Hname in Hne |- *.
  destruct (trim_ends piece) as (Hh & Hl & Hsub).
  split; [split; [now apply nonempty_true|split; [|split; assumption]]|split].
  - intros Hc. apply Hsub in Hc.
    destruct (proj1 (split_pieces colon (trim q) comma)) as [Hin _]; [eauto|].
    apply trim_ends in Hin.
    destruct (proj1 (split_pieces comma input comma)) as [_ Hneq];
      [exists q; split; [now apply list_elem_of_In|exact Hin]|].
    now apply Hneq.
  - intros Hc. apply Hsub in Hc.
    destruct (proj1 (split_pieces colon (trim q) colon)) as [_ Hneq]; [eauto|].
    now apply Hneq.
  - apply parse_share_count.
Qed.

(** X11. Every share the client parses from the participants field has a
    name that is not empty, has no whitespace at either end and holds
    neither comma nor colon, and a count of at least 1 (never NaN), whatever
    number the text after the colon converts to. *)
Theorem parsed_shares_well_formed (input : jsstring) :
  Forall (fun p => ParticipantShare.name p <> []
                   /\ trim (ParticipantShare.name p) = ParticipantShare.name p
                   /\ (comma ∉ ParticipantShare.name p)
                   /\ (colon ∉ ParticipantShare.name p)
                   /\ (1 <=? ParticipantShare.count p)%float = true
                   /\ PrimFloat.is_nan (ParticipantShare.count p) = false)
         (parseParticipantsInput StringToNumber input).
Proof.
  eapply Forall_impl; [apply parsed_shares_facts|].
  intros p ((Hne & Hcomma & Hh & Hl) & Hcolon & Hcount).
  repeat split; auto using trim_id.
  unfold PrimFloat.is_nan. rewrite FloatAxioms.eqb_spec.
  rewrite FloatAxioms.leb_spec in Hcount.
  change (Prim2SF 1) with (S754_finite false 4503599627370496 (-52)) in Hcount.
  destruct (Prim2SF (ParticipantShare.count p)) as [s|s| |s m e];
    try discriminate Hcount; unfold SFeqb, SFcompare;
    rewrite ?Z.compare_refl, ?Pos.compare_cont_refl; destruct s; reflexivity.
Qed.

Lemma submitted_storable (input : jsstring) :
  Forall storable (submitted_participants StringToNumber input).
Proof.
  unfold submitted_participants. apply Forall_map.
  eapply Forall_impl; [apply parsed_shares_facts|].
  now intros p [H _].
Qed.

(** X12. The names the client posts come back unchanged: joined by
    [create] and parsed by [calculateSettlements], they are the same names
    in the same order, for every text of the participants field. *)
Theorem submitted_names_read_back (payer description input : jsstring)
    (amount : float) :
  parsed_participants
    (Expense.participants
       (create {| CreateExpenseDto.payerName := payer;
                  CreateExpenseDto.amount := amount;
                  CreateExpenseDto.description := description;
                  CreateExpenseDto.participants :=
                    submitted_participants StringToNumber input |}))
  = submitted_participants StringToNumber input.
Proof. simpl. apply parsed_join, submitted_storable. Qed.

End ClientFacts.

(* ===================================================================== *)
(** * Weights typed in the participants field *)
(* ===================================================================== *)

Lemma blank_not_elem (s : jsstring) (c : N) :
  blank s -> is_whitespace c = false -> c ∉ s.
Proof.
  intros Hb Hc Hin. unfold blank in Hb. rewrite Forall_forall in Hb.
  apply Hb in Hin. congruence.
Qed.

Lemma trimStart_blank_app (pre s : jsstring) :
  blank pre -> trimStart (pre ++ s) = trimStart s.
Proof. induction 1 as [|c pre Hc _ IH]; simpl; [reflexivity|]. now rewrite Hc. Qed.

(** [trimStart] stops at the first code unit that is not whitespace. *)
Lemma trimStart_app_keep (x y : jsstring) (c : N) :
  is_whitespace c = false -> trimStart (x ++ c :: y) = trimStart x ++ c :: y.
Proof.
  intros Hc. induction x as [|a x IH]; simpl; [now rewrite Hc|].
  destruct (is_whitespace a); [exact IH|reflexivity].
Qed.

Lemma trimEnd_app_keep (x y : jsstring) (c : N) :
  is_whitespace c = false -> trimEnd (x ++ c :: y) = x ++ c :: trimEnd y.
Proof.
  intros Hc. unfold trimEnd.
  rewrite rev_app_distr. simpl. rewrite <- app_assoc. simpl.
  rewrite trimStart_app_keep by exact Hc.
  rewrite rev_app_distr. simpl. rewrite rev_involutive, <- app_assoc. reflexivity.
Qed.

Lemma trimEnd_blank_app (s post : jsstring) :
  blank post -> trimEnd (s ++ post) = trimEnd s.
Proof.
  intros Hb. unfold trimEnd. rewrite rev_app_distr.
  rewrite trimStart_blank_app; [reflexivity|].
  unfold blank in *. apply Forall_forall. intros c Hc.
  rewrite Forall_forall in Hb. apply Hb.
  now apply list_elem_of_In, in_rev, list_elem_of_In.
Qed.

Lemma trimEnd_id (s : jsstring) :
  (forall c, last s = Some c -> is_whitespace c = false) -> trimEnd s = s.
Proof.
  intros Hl. unfold trimEnd. rewrite trimStart_id; [apply rev_involutive|].
  intros c. rewrite head_rev. apply Hl.
Qed.

(** A name typed with blanks around it is trimmed back to the name. *)
Lemma trim_padded (pre s post : jsstring) :
  blank pre -> blank post -> s <> [] ->
  (forall c, head s = Some c -> is_whitespace c = false) ->
  (forall c, last s = Some c -> is_whitespace c = false) ->
  trim (pre ++ s ++ post) = s.
Proof.
  intros Hpre Hpost Hne Hh Hl. unfold trim.
  rewrite trimStart_blank_app by exact Hpre.
  rewrite trimStart_id.
  - rewrite trimEnd_blank_app by exact Hpost. now apply trimEnd_id.
  - destruct s as [|a s]; [congruence|exact Hh].
Qed.

Lemma typed_entry_no_comma (e : TypedEntry.t) :
  well_typed e -> comma ∉ typed_entry e.
Proof.
  intros ((_ & Hcomma & _) & _ & Hpre & Hpost & Hw). unfold typed_entry.
  intros [H|[H|[H|H]%elem_of_app]%elem_of_app]%elem_of_app.
  - revert H. now apply blank_not_elem.
  - now apply Hcomma.
  - revert H. now apply blank_not_elem.
  - destruct (TypedEntry.weight e) as [w|]; [|inversion H].
    apply elem_of_cons in H as [H|H]; [discriminate H|]. now apply (Hw w).
Qed.

Section TypedFacts.

Variable StringToNumber : jsstring -> float.

(** What [trim] leaves of a typed entry is not empty, and [parse_share]
    makes the name alone of it: the weight stays in the count. *)
Lemma parse_share_typed (e : TypedEntry.t) :
  well_typed e ->
  nonempty (trim (typed_entry e)) = true
  /\ ParticipantShare.name (parse_share StringToNumber (trim (typed_entry e)))
     = TypedEntry.name e.
Proof.
  intros ((Hne & _ & Hh & Hl) & Hcolon & Hpre & Hpost & _).
  unfold typed_entry, parse_share. cbn [ParticipantShare.name].
  destruct (TypedEntry.weight e) as [w|].
  - assert (Ht : trim (TypedEntry.before e ++ TypedEntry.name e
                       ++ TypedEntry.after e ++ colon :: w)
                 = (TypedEntry.name e ++ TypedEntry.after e)
                   ++ colon :: trimEnd w).
    { unfold trim. rewrite trimStart_blank_app by exact Hpre.
      rewrite trimStart_id.
      - rewrite app_assoc. now apply trimEnd_app_keep.
      - destruct (TypedEntry.name e); [congruence|exact Hh]. }
    rewrite Ht. split.
    + destruct (TypedEntry.name e); [congruence|reflexivity].
    + rewrite split_app.
      * cbn [map lookup list_lookup default from_option].
        apply (trim_padded [] (TypedEntry.name e) (TypedEntry.after e));
          auto. constructor.
      * intros [H|H]%elem_of_app; [now apply Hcolon|].
        revert H. now apply blank_not_elem.
  - rewrite app_nil_r. rewrite trim_padded by assumption. split.
    + destruct (TypedEntry.name e); [congruence|reflexivity].
    + rewrite split_no_separator by exact Hcolon.
      cbn [map lookup list_lookup default from_option].
      now apply trim_id.
Qed.

(** X13. No weight typed in the participants field reaches the server: for
    a field of entries [name] or [name:weight] separated by commas, with
    blanks around the names or not, the submit handler posts the names
    alone, in the order typed, whatever the weights are and whatever they
    convert to. Two fields that differ in their weights only are posted as
    the same array. *)
Theorem submitted_names_ignore_weights (entries : list TypedEntry.t) :
  Forall well_typed entries ->
  submitted_participants StringToNumber (typed_field entries)
  = map TypedEntry.name entries.
Proof.
  intros Hall. unfold submitted_participants, parseParticipantsInput, typed_field.
  destruct entries as [|e0 es]; [reflexivity|].
  rewrite split_join.
  - induction Hall as [|e l He _ IH]; [reflexivity|].
    destruct (parse_share_typed e He) as [Hn Hp].
    cbn [map List.filter]. rewrite Hn. cbn [map List.filter].
    destruct He as ((Hne & _) & _). apply nonempty_true in Hne.
    rewrite Hp, Hne. cbn [map]. rewrite Hp. f_equal. exact IH.
  - apply Forall_map. eapply Forall_impl; [exact Hall|].
    apply typed_entry_no_comma.
  - discriminate.
Qed.

End TypedFacts.

Lemma submitted_names_ignore_weights_witness :
  let entries :=
    [TypedEntry.mk (js " ") (js "A") [] (Some (js "2"));
     TypedEntry.mk [] (js "Bob Smith") (js " ") (Some (js " x:3 "));
     TypedEntry.mk [] (js "C") [] None] in
  typed_field entries = js " A:2,Bob Smith : x:3 ,C"
  /\ submitted_participants (fun _ => 2%float) (typed_field entries)
     = [js "A"; js "Bob Smith"; js "C"].
Proof.
  split; [reflexivity|].
  apply (submitted_names_ignore_weights (fun _ => 2%float)
           [TypedEntry.mk (js " ") (js "A") [] (Some (js "2"));
            TypedEntry.mk [] (js "Bob Smith") (js " ") (Some (js " x:3 "));
            TypedEntry.mk [] (js "C") [] None]).
  repeat constructor; try discriminate;
    try (intros c [= <-]; reflexivity);
    try (intros w [= <-]);
    intros H; vm_compute in H;
    repeat (apply elem_of_cons in H as [H|H]; [discriminate H|]);
    inversion H.
Defined.

(* ===================================================================== *)
(** * Subtraction of Numbers does not overflow *)
(* ===================================================================== *)

#[local] Open Scope Z_scope.

Lemma digits2_pos_size (p : positive) : digits2_pos p = Pos.size p.
Proof. induction p; simpl; congruence. Qed.

Lemma digits2_pos_bounds (m : positive) :
  2 ^ (Zpos (digits2_pos m) - 1) <= Zpos m < 2 ^ Zpos (digits2_pos m).
Proof.
  rewrite digits2_pos_size. split.
  - pose proof (Pos.size_le m) as H.
    apply Pos2Z.pos_le_pos in H. rewrite Pos2Z.inj_pow in H.
    change (Zpos m~0) with (2 * Zpos m) in H.
    replace (Zpos (Pos.size m)) with (Z.succ (Zpos (Pos.size m) - 1)) in H by lia.
    rewrite Z.pow_succ_r in H by lia. lia.
  - pose proof (Pos.size_gt m) as H.
    apply Pos2Z.pos_lt_pos in H. now rewrite Pos2Z.inj_pow in H.
Qed.

Lemma Zdigits2_nonneg (x : Z) : 0 <= Zdigits2 x.
Proof. destruct x; simpl; lia. Qed.

Lemma Zdigits2_le (x k : Z) : 0 <= k -> 0 <= x < 2 ^ k -> Zdigits2 x <= k.
Proof.
  intros Hk [H0 Hx]. destruct x as [|p|p]; simpl; [lia| |lia].
  destruct (digits2_pos_bounds p) as [Hl _].
  assert (H : 2 ^ (Zpos (digits2_pos p) - 1) < 2 ^ k) by lia.
  apply Z.pow_lt_mono_r_iff in H; lia.
Qed.

Lemma iter_pos_nat {A : Type} (f : A -> A) (p : positive) (x : A) :
  SpecFloat.iter_pos f p x = Nat.iter (Pos.to_nat p) f x.
Proof.
  revert x. induction p as [p IH|p IH|]; intros x;
    cbn [SpecFloat.iter_pos].
  - rewrite !IH, Pos2Nat.inj_xI.
    rewrite <- (Nat.iter_succ_r (Pos.to_nat p)), <- Nat.iter_add.
    f_equal. lia.
  - rewrite !IH, Pos2Nat.inj_xO, <- Nat.iter_add. f_equal. lia.
  - reflexivity.
Qed.

Lemma shr_1_shifted (m0 k : Z) (mrs : shr_record) :
  0 <= m0 -> 0 <= k -> shifted m0 k mrs -> shifted m0 (k + 1) (shr_1 mrs).
Proof.
  intros Hm Hk (Hq & Hr & Hs). destruct mrs as [m r s]. simpl in *.
  assert (Hp : 0 < 2 ^ k) by (apply Z.pow_pos_nonneg; lia).
  assert (Hm0 : m * 2 ^ k <= m0).
  { subst m. rewrite Z.mul_comm. apply Z.mul_div_le. lia. }
  assert (H0 : 0 <= m) by (subst m; apply Z.div_pos; lia).
  assert (Hdiv : m / 2 = m0 / 2 ^ (k + 1)).
  { subst m. rewrite Z.pow_add_r, Z.pow_1_r by lia.
    now rewrite Z.div_div by lia. }
  assert (Hpow : 2 ^ (k + 1) = 2 * 2 ^ k).
  { rewrite Z.pow_add_r, Z.pow_1_r by lia. lia. }
  assert (Hrs : r || s = true -> m * 2 ^ k < m0).
  { intros [->| ->]%orb_true_iff; auto. }
  assert (E1 : forall p, Z.pos p~1 / 2 = Z.pos p).
  { intros p. symmetry. apply (Z.div_unique _ 2 _ 1); lia. }
  assert (E0 : forall p, Z.pos p~0 / 2 = Z.pos p).
  { intros p. symmetry. apply (Z.div_unique _ 2 _ 0); lia. }
  unfold shifted. rewrite <- Hdiv, Hpow.
  destruct m as [|[p|p|]|p]; simpl shr_m; simpl shr_r; simpl shr_s;
    try lia; rewrite ?E1, ?E0.
  - split; [reflexivity|]. split; [discriminate|]. intros E. specialize (Hrs E). lia.
  - split; [reflexivity|]. split; intros _; lia.
  - split; [reflexivity|]. split; [discriminate|].
    intros E'. specialize (Hrs E'). lia.
  - change (1 / 2) with 0. split; [reflexivity|]. split; intros _; lia.
Qed.

Lemma iter_shr_1_shifted (m0 : Z) (n : nat) :
  0 <= m0 ->
  shifted m0 (Z.of_nat n) (Nat.iter n shr_1 (Build_shr_record m0 false false)).
Proof.
  intros Hm. induction n as [|n IH].
  - simpl. unfold shifted. simpl. rewrite Z.div_1_r.
    split; [reflexivity|]. split; discriminate.
  - rewrite Nat2Z.inj_succ, <- Z.add_1_r. simpl.
    apply shr_1_shifted; [exact Hm|lia|exact IH].
Qed.

(** A right shift by [n] places: the exponent moves by [n], the mantissa
    is the quotient, and a raised flag means that the shift was inexact. *)
Lemma shr_shifted (m0 e n : Z) :
  0 <= m0 ->
  exists mrs, shr (Build_shr_record m0 false false) e n = (mrs, e + Z.max 0 n)
              /\ shifted m0 (Z.max 0 n) mrs.
Proof.
  intros Hm. destruct n as [|p|p]; simpl shr.
  - eexists. split; [f_equal; lia|]. apply (iter_shr_1_shifted m0 0 Hm).
  - eexists. split; [f_equal; lia|]. rewrite iter_pos_nat.
    replace (Z.max 0 (Z.pos p)) with (Z.of_nat (Pos.to_nat p)) by lia.
    now apply iter_shr_1_shifted.
  - eexists. split; [f_equal; lia|]. apply (iter_shr_1_shifted m0 0 Hm).
Qed.

(** Rounding to nearest keeps the quotient or adds one to it, and adds one
    only when the shift was inexact. *)
Lemma round_nearest_even_shifted (m0 k : Z) (mrs : shr_record) :
  shifted m0 k mrs ->
  let q := round_nearest_even (shr_m mrs) (loc_of_shr_record mrs) in
  (q = m0 / 2 ^ k) \/ (q = m0 / 2 ^ k + 1 /\ (m0 / 2 ^ k) * 2 ^ k < m0).
Proof.
  intros (Hq & Hr & Hs). destruct mrs as [m [|] [|]]; simpl in *; subst m.
  - right. split; [reflexivity|auto].
  - destruct (Z.even _); [now left|right; split; [reflexivity|auto]].
  - now left.
  - now left.
Qed.

Lemma fexp_53 (e : Z) : fexp prec emax e = Z.max (e - 53) (-1074).
Proof. reflexivity. Qed.

Lemma pow2_pos (k : Z) : 0 <= k -> 0 < 2 ^ k.
Proof. intros. apply Z.pow_pos_nonneg; lia. Qed.

Lemma pow2_lt_inv (a b : Z) : 0 <= b -> 2 ^ a < 2 ^ b -> a < b.
Proof. intros Hb H. apply Z.pow_lt_mono_r_iff in H; lia. Qed.

(** Rounding a positive integer [mz * 2^ez] that is no larger than the
    largest finite Number gives zero or a finite Number. *)
Lemma binary_round_aux_no_overflow (s : bool) (mz : positive) (ez : Z) :
  -1074 <= ez ->
  ez <= fexp prec emax (Zpos (digits2_pos mz) + ez) ->
  Zpos mz * 2 ^ (ez + 1074) <= (2 ^ 53 - 1) * 2 ^ 2045 ->
  zero_or_finite s (binary_round_aux prec emax s (Zpos mz) ez loc_Exact).
Proof.
  intros Hez Hf Hmax.
  set (d := Zpos (digits2_pos mz)) in *.
  destruct (digits2_pos_bounds mz) as [Hlo Hhi]. fold d in Hlo, Hhi.
  assert (Hd : 1 <= d) by (unfold d; lia).
  (* the magnitude exponent is at most 1024 *)
  assert (HE : d + ez <= 1024).
  { assert (H : 2 ^ (d - 1 + (ez + 1074)) < 2 ^ 2098).
    { rewrite Z.pow_add_r by lia.
      eapply Z.le_lt_trans;
        [apply Z.mul_le_mono_nonneg_r; [apply Z.lt_le_incl, pow2_pos; lia|exact Hlo]|].
      eapply Z.le_lt_trans; [exact Hmax|].
      change (2 ^ 2098) with (2 ^ 53 * 2 ^ 2045).
      apply Z.mul_lt_mono_pos_r; [apply pow2_pos; lia|lia]. }
    apply pow2_lt_inv in H; lia. }
  rewrite fexp_53 in Hf.
  set (f := Z.max (d + ez - 53) (-1074)) in *.
  set (n := f - ez).
  assert (Hn : 0 <= n) by (unfold n; lia).
  set (w := d - n).
  assert (Hw : 1 <= w <= 53) by (unfold w, n, f; lia).
  unfold binary_round_aux, shr_fexp.
  change (Zdigits2 (Zpos mz)) with d. rewrite fexp_53. fold f. fold n.
  change (shr_record_of_loc (Zpos mz) loc_Exact)
    with (Build_shr_record (Zpos mz) false false).
  destruct (shr_shifted (Zpos mz) ez n) as (mrs' & -> & Hsh); [lia|].
  rewrite Z.max_r in * by exact Hn.
  replace (ez + n) with f by (unfold n; lia).
  pose proof (round_nearest_even_shifted _ _ _ Hsh) as Hq. cbv zeta in Hq.
  set (q := Zpos mz / 2 ^ n) in *.
  set (q' := round_nearest_even (shr_m mrs') (loc_of_shr_record mrs')) in *.
  assert (Hq0 : 0 <= q) by (apply Z.div_pos; [lia|apply pow2_pos; lia]).
  assert (Hqw : q < 2 ^ w).
  { apply Z.div_lt_upper_bound; [apply pow2_pos; lia|].
    rewrite <- Z.pow_add_r by lia. replace (n + w) with d by (unfold w; lia).
    exact Hhi. }
  assert (Hq' : 0 <= q' <= 2 ^ w) by (destruct Hq as [->|[-> _]]; lia).
  (* the second shift *)
  change (shr_record_of_loc q' loc_Exact) with (Build_shr_record q' false false).
  rewrite fexp_53.
  set (n2 := Z.max (Zdigits2 q' + f - 53) (-1074) - f).
  destruct (shr_shifted q' f n2) as (mrs'' & -> & (Hm'' & _)); [lia|].
  assert (Hm0 : 0 <= shr_m mrs'').
  { rewrite Hm''. apply Z.div_pos; [lia|apply pow2_pos; lia]. }
  destruct (shr_m mrs'') as [|m|m] eqn:Em; [now left| |lia].
  assert (Hfin : f + Z.max 0 n2 <= 971); [|].
  { (* the digits of the rounded mantissa *)
    assert (Hdig : Zdigits2 q' <= w \/ (q' = 2 ^ w /\ Zdigits2 q' <= w + 1)).
    { destruct (Z.eq_dec q' (2 ^ w)) as [E|E].
      - right. split; [exact E|]. apply Zdigits2_le; [lia|].
        rewrite E. split; [lia|]. apply Z.pow_lt_mono_r; lia.
      - left. apply Zdigits2_le; lia. }
    destruct Hdig as [Hdig|[Eq Hdig]].
    - unfold n2, w, n, f in *. lia.
    - destruct (Z.eq_dec (d + ez) 1024) as [E1024|NE]; [|unfold n2, w, n, f in *; lia].
      exfalso.
      destruct Hq as [Hq|[Hq Hlt]]; [lia|].
      assert (Hw53 : w = 53) by (unfold w, n, f; lia).
      assert (n + (ez + 1074) = 2045) by (unfold n, f; lia).
      assert (Hq53 : q = 2 ^ 53 - 1) by (rewrite Hw53 in Eq; lia).
      rewrite Hq53 in Hlt.
      assert (H2 : (2 ^ 53 - 1) * 2 ^ n * 2 ^ (ez + 1074)
                   < Zpos mz * 2 ^ (ez + 1074)).
      { apply Z.mul_lt_mono_pos_r; [apply pow2_pos; lia|exact Hlt]. }
      rewrite <- Z.mul_assoc, <- Z.pow_add_r in H2 by lia.
      replace (n + (ez + 1074)) with 2045 in H2 by lia. lia. }
  right. apply Z.leb_le in Hfin.
  change (emax - prec) with 971. rewrite Hfin. eauto.
Qed.

Lemma iter_xO_value (m k : positive) :
  Zpos (Pos.iter xO m k) = Zpos m * 2 ^ Zpos k
  /\ Zpos (digits2_pos (Pos.iter xO m k)) = Zpos (digits2_pos m) + Zpos k.
Proof.
  induction k as [|k [IHv IHd]] using Pos.peano_ind.
  - simpl. split; [lia|]. lia.
  - rewrite Pos.iter_succ, Pos2Z.inj_succ. split.
    + rewrite Pos2Z.inj_xO, IHv, Z.pow_succ_r by lia. lia.
    + cbn [digits2_pos]. rewrite Pos2Z.inj_succ, IHd. lia.
Qed.

(** The mantissa [shl_align] returns, and its exponent, for a target
    exponent [e']: the value is kept. *)
Lemma shl_align_value (m : positive) (e e' : Z) :
  let '(mz, ez) := shl_align m e e' in
  ez = Z.min e e'
  /\ Zpos mz = Zpos m * 2 ^ (e - ez)
  /\ Zpos (digits2_pos mz) + ez = Zpos (digits2_pos m) + e.
Proof.
  unfold shl_align. destruct (e' - e) as [|k|k] eqn:E.
  - split; [lia|]. replace (e - e) with 0 by lia. split; lia.
  - split; [lia|]. replace (e - e) with 0 by lia. split; lia.
  - destruct (iter_xO_value m k) as [Hv Hd].
    split; [lia|]. replace (e - e') with (Zpos k) by lia. split; [exact Hv|lia].
Qed.

Lemma binary_round_no_overflow (s : bool) (m : positive) (e : Z) :
  -1074 <= e ->
  Zpos m * 2 ^ (e + 1074) <= (2 ^ 53 - 1) * 2 ^ 2045 ->
  zero_or_finite s (binary_round prec emax s m e).
Proof.
  intros He Hmax. unfold binary_round.
  pose proof (shl_align_value m e (fexp prec emax (Zpos (digits2_pos m) + e)))
    as H.
  destruct (shl_align m e _) as [mz ez]. destruct H as (Hez & Hv & Hd).
  rewrite fexp_53 in Hez.
  apply binary_round_aux_no_overflow.
  - lia.
  - rewrite Hd, fexp_53. lia.
  - rewrite Hv, <- Z.mul_assoc, <- Z.pow_add_r by lia.
    now replace (e - ez + (ez + 1074)) with (e + 1074) by lia.
Qed.

(** A valid finite Number: its mantissa has at most 53 digits, exactly 53
    above the least exponent, and its exponent lies in [-1074, 971]. *)
Lemma bounded_facts (m : positive) (e : Z) :
  bounded prec emax m e = true ->
  -1074 <= e <= 971
  /\ Zpos m < 2 ^ 53
  /\ (-1074 < e -> 2 ^ 52 <= Zpos m).
Proof.
  unfold bounded, canonical_mantissa. rewrite andb_true_iff, Z.eqb_eq, Z.leb_le.
  rewrite fexp_53. change (emax - prec) with 971. intros [Hc He].
  destruct (digits2_pos_bounds m) as [Hlo Hhi].
  set (d := Zpos (digits2_pos m)) in *.
  split; [lia|]. split.
  - eapply Z.lt_le_trans; [exact Hhi|]. apply Z.pow_le_mono_r; lia.
  - intros H. replace d with 53 in Hlo by lia. exact Hlo.
Qed.

(** Taking a smaller positive Number from a larger one gives zero or a
    positive finite Number: the rounding cannot overflow. *)
Lemma SFsub_smaller (mx my : positive) (ex ey : Z) :
  bounded prec emax mx ex = true ->
  bounded prec emax my ey = true ->
  SFltb (S754_finite false mx ex) (S754_finite false my ey) = true ->
  zero_or_finite false
    (SFsub prec emax (S754_finite false my ey) (S754_finite false mx ex)).
Proof.
  intros (Hex & Hmx & _)%bounded_facts (Hey & Hmy & Hny)%bounded_facts Hlt.
  unfold SFltb, SFcompare in Hlt. cbn [SFsub cond_Zopp].
  pose proof (shl_align_value my ey (Z.min ey ex)) as Hy.
  pose proof (shl_align_value mx ex (Z.min ey ex)) as Hx.
  destruct (shl_align my ey _) as [my' ey'], (shl_align mx ex _) as [mx' ex'].
  cbn [fst]. destruct Hy as (Hey' & Hvy & _), Hx as (Hex' & Hvx & _).
  assert (Hle : ex <= ey).
  { destruct (Z.compare_spec ex ey); try discriminate; lia. }
  rewrite Z.min_r in * by lia.
  replace ey' with ex in * by lia. replace ex' with ex in * by lia.
  rewrite Z.sub_diag, Z.mul_1_r in Hvx.
  assert (Hpos : Zpos mx' < Zpos my').
  { rewrite Hvx, Hvy. destruct (Z.compare_spec ex ey) as [E|E|E];
      try discriminate.
    - subst ey. rewrite Z.sub_diag, Z.mul_1_r.
      change (Pos.compare_cont Eq mx my) with (mx ?= my)%positive in Hlt.
      destruct (Pos.compare_spec mx my); try discriminate. lia.
    - assert (H1 : 2 ^ 1 <= 2 ^ (ey - ex)) by (apply Z.pow_le_mono_r; lia).
      assert (H2 : 2 ^ 52 <= Zpos my) by (apply Hny; lia).
      change (2 ^ 1) with 2 in H1. nia. }
  destruct (Z.pos my' - Z.pos mx') as [|M|M] eqn:EM; try lia.
  cbn [binary_normalize]. apply binary_round_no_overflow; [lia|].
  assert (Hp : 0 < 2 ^ (ex + 1074)) by (apply pow2_pos; lia).
  assert (HM : Zpos M * 2 ^ (ex + 1074) <= Zpos my' * 2 ^ (ex + 1074)).
  { apply Z.mul_le_mono_nonneg_r; lia. }
  eapply Z.le_trans; [exact HM|].
  rewrite Hvy, <- Z.mul_assoc, <- Z.pow_add_r by lia.
  replace (ey - ex + (ex + 1074)) with (ey + 1074) by lia.
  assert (H3 : 2 ^ (ey + 1074) <= 2 ^ 2045) by (apply Z.pow_le_mono_r; lia).
  assert (H4 : 0 < 2 ^ (ey + 1074)) by (apply pow2_pos; lia).
  nia.
Qed.

Lemma payable_zero_or_finite (x : float) :
  zero_or_finite false (Prim2SF x) -> payable x.
Proof. unfold payable. intros [->|(m & e & ->)]; exact I. Qed.

Lemma payable_not_nan (x : float) : payable x -> PrimFloat.is_nan x = false.
Proof.
  unfold payable, PrimFloat.is_nan. rewrite FloatAxioms.eqb_spec.
  destruct (Prim2SF x) as [s|s| |[|] m e]; try contradiction; intros _;
    unfold SFeqb, SFcompare; rewrite ?Z.compare_refl, ?Pos.compare_cont_refl;
    reflexivity.
Qed.

Lemma payable_bounded (x : float) (s : bool) (m : positive) (e : Z) :
  Prim2SF x = S754_finite s m e -> bounded prec emax m e = true.
Proof. intros H. pose proof (Prim2SF_valid x) as Hv. now rewrite H in Hv. Qed.

Lemma sub_self_payable (x : float) : payable x -> payable (x - x)%float.
Proof.
  unfold payable. rewrite FloatAxioms.sub_spec. unfold SF64sub.
  destruct (Prim2SF x) as [[|]|s| |[|] m e]; try contradiction; intros _;
    cbn [SFsub cond_Zopp]; rewrite ?Z.sub_diag; exact I.
Qed.

Lemma sub_smaller_payable (x y : float) :
  payable x -> payable y -> (x <? y)%float = true -> payable (y - x)%float.
Proof.
  intros Hx Hy. rewrite FloatAxioms.ltb_spec. intros Hlt.
  apply payable_zero_or_finite. rewrite FloatAxioms.sub_spec. unfold SF64sub.
  unfold payable in Hx, Hy.
  destruct (Prim2SF x) as [sx|sx| |[|] mx ex] eqn:Ex; try contradiction;
    destruct (Prim2SF y) as [sy|sy| |[|] my ey] eqn:Ey; try contradiction;
    try discriminate Hlt.
  - right. eauto.
  - apply SFsub_smaller; [eapply payable_bounded, Ex|eapply payable_bounded, Ey|].
    exact Hlt.
Qed.

Lemma sub_equal_payable (x y : float) :
  payable x -> payable y ->
  (x <? y)%float = false -> (y <? x)%float = false -> payable (y - x)%float.
Proof.
  intros Hx Hy. rewrite !FloatAxioms.ltb_spec. intros Hxy Hyx.
  unfold payable in *. rewrite FloatAxioms.sub_spec. unfold SF64sub.
  destruct (Prim2SF x) as [sx|sx| |[|] mx ex]; try contradiction;
    destruct (Prim2SF y) as [sy|sy| |[|] my ey]; try contradiction;
    try discriminate Hxy; try discriminate Hyx.
  - destruct sx, sy; exact I.
  - unfold SFltb, SFcompare in Hxy, Hyx.
    rewrite (Z.compare_antisym ex ey) in Hyx.
    change (Pos.compare_cont Eq my mx) with (my ?= mx)%positive in Hyx.
    change (Pos.compare_cont Eq mx my) with (mx ?= my)%positive in Hxy.
    rewrite (Pos.compare_antisym mx my) in Hyx.
    destruct (Z.compare_spec ex ey) as [E|E|E]; try discriminate.
    destruct (Pos.compare_spec mx my) as [E'|E'|E']; try discriminate.
    subst. cbn [SFsub cond_Zopp]. rewrite Z.sub_diag. exact I.
Qed.

(** After one pass both amounts under the cursors are still zero or
    positive and finite. *)
Lemma Math_min_sub_payable (d c : float) :
  payable d -> payable c ->
  payable (d - Math_min d c)%float /\ payable (c - Math_min d c)%float.
Proof.
  intros Hd Hc. unfold Math_min.
  rewrite (payable_not_nan d Hd), (payable_not_nan c Hc). simpl orb. cbv iota.
  destruct (d <? c)%float eqn:Edc.
  - split; [now apply sub_self_payable|now apply sub_smaller_payable].
  - destruct (c <? d)%float eqn:Ecd.
    + split; [now apply sub_smaller_payable|now apply sub_self_payable].
    + destruct (get_sign d);
        (split; [first [now apply sub_self_payable|now apply sub_equal_payable]
                |first [now apply sub_self_payable|now apply sub_equal_payable]]).
Qed.

Lemma loop_body_all_payable (st : LoopState) :
  all_payable st -> all_payable (loop_body st).
Proof.
  intros [Hd Hc]. unfold loop_body.
  destruct (debtors st !! i st) as [d|] eqn:Ed; [|now split].
  destruct (creditors st !! j st) as [c|] eqn:Ec; [|now split].
  destruct (Math_min_sub_payable (Party.amount d) (Party.amount c)) as [Pd Pc].
  - exact (proj1 (Forall_lookup _ _) Hd _ _ Ed).
  - exact (proj1 (Forall_lookup _ _) Hc _ _ Ec).
  - split; cbn [debtors creditors]; now apply Forall_insert.
Qed.

Lemma iterations_all_payable (n : nat) (st : LoopState) :
  all_payable st -> all_payable (iterations n st).
Proof.
  revert st. induction n as [|n IH]; intros st H; simpl; [exact H|].
  destruct (loop_condition st); [|exact H].
  apply IH, loop_body_all_payable, H.
Qed.

Lemma all_payable_not_stuck (st : LoopState) : all_payable st -> ~ stuck st.
Proof.
  intros [Hd Hc] (d & c & Ed & Ec & Hn).
  pose proof (proj1 (Forall_lookup _ _) Hd _ _ Ed) as Pd.
  pose proof (proj1 (Forall_lookup _ _) Hc _ _ Ec) as Pc.
  simpl in Pd, Pc. destruct Hn as [E|E]; rewrite E in *; [exact Pd|exact Pc].
Qed.

Lemma positive_payable (r : float) :
  (0 <? r)%float = true -> PrimFloat.is_infinity r = false -> payable r.
Proof.
  unfold PrimFloat.is_infinity, payable.
  rewrite FloatAxioms.ltb_spec, FloatAxioms.eqb_spec, FloatAxioms.abs_spec.
  change (Prim2SF 0) with (S754_zero false).
  change (Prim2SF infinity) with (S754_infinity false).
  destruct (Prim2SF r) as [s|[|]| |[|] m e]; simpl; try discriminate; auto.
Qed.

Lemma negative_payable (r : float) :
  (r <? 0)%float = true -> PrimFloat.is_infinity r = false -> payable (- r)%float.
Proof.
  unfold PrimFloat.is_infinity, payable.
  rewrite FloatAxioms.ltb_spec, FloatAxioms.eqb_spec, FloatAxioms.abs_spec, FloatAxioms.opp_spec.
  change (Prim2SF 0) with (S754_zero false).
  change (Prim2SF infinity) with (S754_infinity false).
  destruct (Prim2SF r) as [s|[|]| |[|] m e]; simpl; try discriminate; auto.
Qed.

Lemma loop_start_all_payable (balances : object) :
  finite_balances balances -> all_payable (loop_start balances).
Proof.
  intros Hfin. unfold all_payable, loop_start. cbn [debtors creditors].
  rewrite initial_debtors_spec, initial_creditors_spec.
  unfold finite_balances in Hfin. rewrite Forall_forall in Hfin.
  split; apply Forall_map, Forall_forall;
    intros kv [Hin Hr]%list_elem_of_In%filter_In; cbn [Party.amount].
  - apply negative_payable; [exact Hr|].
    now apply Hfin, Object_entries_elem_of, list_elem_of_In.
  - apply positive_payable; [exact Hr|].
    now apply Hfin, Object_entries_elem_of, list_elem_of_In.
Qed.


(** X8. [calculateSettlements] returns whenever no rounded balance is
    infinite, and then within as many passes of the matching loop as there
    are debtors and creditors: the remaining amounts stay zero or positive
    and finite, so one of them reaches exactly 0 at every pass. *)
Theorem settlement_returns (expenses : list Expense.t) :
  finite_balances (accumulate expenses) ->
  exists r,
    calculateSettlements
      (length (debtor_entries (accumulate expenses))
       + length (creditor_entries (accumulate expenses))) expenses = Some r.
Proof.
  intros Hfin.
  pose proof (loop_start_all_payable _ Hfin) as Hpay.
  destruct (partition_lengths (accumulate expenses)) as [<- <-].
  destruct (loop_ends_or_never (loop_start (accumulate expenses)))
    as [(n & Hn & He)|[[n Hst] _]].
  - unfold cursor_room in Hn. simpl in Hn. rewrite !Nat.sub_0_r in Hn.
    exists (Result.mk (accumulate expenses) (emitted n expenses)).
    replace (length (initial_debtors (accumulate expenses))
             + length (initial_creditors (accumulate expenses)))%nat
      with (n + (length (initial_debtors (accumulate expenses))
                 + length (initial_creditors (accumulate expenses)) - n))%nat
      by lia.
    apply calculateSettlements_more_fuel.
    unfold calculateSettlements. now rewrite He.
  - exfalso. revert Hst. apply all_payable_not_stuck.
    now apply iterations_all_payable.
Qed.

Lemma settlement_returns_witness :
  let expenses :=
    [expense (js "C1") 10 (js "D1"); expense (js "C2") 20 (js "D1");
     expense (js "C3") 50 (js "D2")] in
  finite_balances (accumulate expenses)
  /\ exists r, calculateSettlements 5 expenses = Some r.
Proof.
  intros expenses.
  assert (H : finite_balances (accumulate expenses))
    by (vm_compute; repeat constructor).
  split; [exact H|]. exact (settlement_returns expenses H).
Defined.

(* ===================================================================== *)
(** * Transfer amounts are never negative *)
(* ===================================================================== *)

Lemma shr_1_nonneg (mrs : shr_record) : 0 <= shr_m mrs -> 0 <= shr_m (shr_1 mrs).
Proof.
  destruct mrs as [[|[p|p|]|p] r s]; simpl; lia.
Qed.

Lemma shr_nonneg (mrs : shr_record) (e n : Z) :
  0 <= shr_m mrs -> 0 <= shr_m (fst (shr mrs e n)).
Proof.
  intros H. destruct n as [|p|p]; simpl; try exact H.
  rewrite iter_pos_nat. induction (Pos.to_nat p) as [|k IH]; simpl; [exact H|].
  now apply shr_1_nonneg.
Qed.

Lemma shr_record_of_loc_m (m : Z) (l : location) :
  shr_m (shr_record_of_loc m l) = m.
Proof. destruct l as [|[| |]]; reflexivity. Qed.

Lemma round_nearest_even_nonneg (m : Z) (l : location) :
  0 <= m -> 0 <= round_nearest_even m l.
Proof.
  intros H. destruct l as [|[| |]]; simpl; try lia. destruct (Z.even m); lia.
Qed.

(** Rounding a mantissa that is not negative never gives NaN, and gives
    the sign asked for. *)
Lemma binary_round_aux_sign (s : bool) (m e : Z) (l : location) :
  0 <= m ->
  match binary_round_aux prec emax s m e l with
  | S754_zero s' | S754_finite s' _ _ | S754_infinity s' => s' = s
  | S754_nan => False
  end.
Proof.
  intros Hm. unfold binary_round_aux, shr_fexp.
  pose proof (shr_nonneg (shr_record_of_loc m l) e
                (fexp prec emax (Zdigits2 m + e) - e)) as H1.
  rewrite shr_record_of_loc_m in H1. specialize (H1 Hm).
  destruct (shr (shr_record_of_loc m l) e _) as [mrs' e']. cbn [fst] in H1.
  set (q := round_nearest_even (shr_m mrs') (loc_of_shr_record mrs')).
  assert (Hq : 0 <= q) by now apply round_nearest_even_nonneg.
  pose proof (shr_nonneg (shr_record_of_loc q loc_Exact) e'
                (fexp prec emax (Zdigits2 q + e') - e')) as H2.
  rewrite shr_record_of_loc_m in H2. specialize (H2 Hq).
  destruct (shr (shr_record_of_loc q loc_Exact) e' _) as [mrs'' e''].
  cbn [fst] in H2.
  destruct (shr_m mrs''); [reflexivity| |lia].
  destruct (e'' <=? emax - prec); reflexivity.
Qed.

Lemma binary_round_aux_not_negative (m e : Z) (l : location) :
  0 <= m -> not_negative (binary_round_aux prec emax false m e l).
Proof.
  intros Hm. pose proof (binary_round_aux_sign false m e l Hm) as H.
  destruct (binary_round_aux _ _ _ _ _ _) as [s|s| |s ? ?];
    try contradiction; subst; exact I.
Qed.

Lemma binary_normalize_not_negative (m e : Z) :
  0 <= m -> not_negative (binary_normalize prec emax m e false).
Proof.
  intros Hm. destruct m as [|p|p]; [exact I| |lia].
  cbn [binary_normalize]. unfold binary_round.
  destruct (shl_align _ _ _) as [mz ez].
  apply binary_round_aux_not_negative. lia.
Qed.

Lemma mul_not_negative (x y : float) :
  not_negative (Prim2SF x) ->
  (exists m e, Prim2SF y = S754_finite false m e) ->
  not_negative (Prim2SF (x * y)%float).
Proof.
  intros Hx (m & e & Hy). rewrite FloatAxioms.mul_spec, Hy. unfold SF64mul.
  destruct (Prim2SF x) as [s|[|]| |[|] mx ex]; try contradiction;
    cbn [SFmul xorb]; try exact I.
  apply binary_round_aux_not_negative. lia.
Qed.

Lemma div_not_negative (x y : float) :
  not_negative (Prim2SF x) ->
  (exists m e, Prim2SF y = S754_finite false m e) ->
  not_negative (Prim2SF (x / y)%float).
Proof.
  intros Hx (m & e & Hy). rewrite FloatAxioms.div_spec, Hy. unfold SF64div.
  destruct (Prim2SF x) as [s|[|]| |[|] mx ex]; try contradiction;
    cbn [SFdiv xorb]; try exact I.
  unfold SFdiv_core_binary.
  set (m' := match _ with Z.pos _ => _ | _ => _ end).
  assert (Hm' : 0 <= m').
  { unfold m'. destruct (_ - _ - _) as [|p|p]; try lia.
    apply Z.shiftl_nonneg. lia. }
  pose proof (Z_div_mod m' (Zpos m) ltac:(lia)) as Hdm.
  destruct (Z.div_eucl m' (Z.pos m)) as [q r].
  apply binary_round_aux_not_negative. nia.
Qed.

Lemma of_Z_exact_not_negative (n : Z) :
  0 <= n -> not_negative (Prim2SF (of_Z_exact n)).
Proof.
  intros Hn. unfold of_Z_exact.
  destruct (Z.ltb_spec n 0) as [H|_]; [lia|].
  rewrite of_uint63_spec. apply binary_normalize_not_negative.
  apply Uint63.to_Z_bounded.
Qed.

Lemma Math_round_not_negative (x : float) :
  not_negative (Prim2SF x) -> not_negative (Prim2SF (Math_round x)).
Proof.
  intros Hx. unfold Math_round.
  destruct (Prim2SF x) as [s|[|]| |[|] m e] eqn:E; try contradiction;
    try (rewrite E; exact I).
  destruct (Z.leb_spec 0 e) as [He|He]; [rewrite E; exact I|].
  set (n := (2 * Z.pos m + 2 ^ (- e)) / 2 ^ (1 - e)).
  assert (Hn : 0 <= n).
  { apply Z.div_pos; [|apply pow2_pos; lia].
    assert (0 <= 2 ^ (- e)) by (apply Z.pow_nonneg; lia). lia. }
  destruct (n =? 0); [exact I|now apply of_Z_exact_not_negative].
Qed.

Lemma payable_not_negative (x : float) : payable x -> not_negative (Prim2SF x).
Proof.
  unfold payable. destruct (Prim2SF x) as [s|s| |[|] m e]; auto; contradiction.
Qed.

Lemma round2_not_negative (x : float) :
  not_negative (Prim2SF x) -> not_negative (Prim2SF (round2 x)).
Proof.
  intros Hx. unfold round2.
  assert (H100 : exists m e, Prim2SF 100 = S754_finite false m e)
    by (vm_compute; eauto).
  apply div_not_negative; [|exact H100].
  apply Math_round_not_negative, mul_not_negative; [exact Hx|exact H100].
Qed.

Lemma not_negative_compare (x : float) :
  not_negative (Prim2SF x) ->
  (x <? 0)%float = false /\ PrimFloat.is_nan x = false.
Proof.
  unfold PrimFloat.is_nan.
  rewrite FloatAxioms.ltb_spec, FloatAxioms.eqb_spec.
  change (Prim2SF 0) with (S754_zero false).
  destruct (Prim2SF x) as [s|[|]| |[|] m e]; try contradiction; intros _;
    unfold SFltb, SFeqb, SFcompare;
    rewrite ?Z.compare_refl, ?Pos.compare_cont_refl; auto.
Qed.

Lemma Math_min_payable (d c : float) :
  payable d -> payable c -> payable (Math_min d c).
Proof.
  intros Hd Hc. unfold Math_min.
  rewrite (payable_not_nan d Hd), (payable_not_nan c Hc). simpl orb. cbv iota.
  destruct (d <? c)%float; [exact Hd|].
  destruct (c <? d)%float; [exact Hc|]. now destruct (get_sign d).
Qed.

Lemma iterations_amounts_not_negative (n : nat) (st : LoopState) :
  all_payable st ->
  Forall (fun t => not_negative (Prim2SF (Settlement.amount t))) (settlements st) ->
  Forall (fun t => not_negative (Prim2SF (Settlement.amount t)))
         (settlements (iterations n st)).
Proof.
  revert st. induction n as [|n IH]; intros st Hp H; simpl; [exact H|].
  destruct (loop_condition st) eqn:Hc; [|exact H].
  apply IH; [now apply loop_body_all_payable|].
  apply loop_condition_true in Hc as (d & c & Hd & Hcr).
  rewrite (loop_body_settlements st d c Hd Hcr).
  apply Forall_app. split; [exact H|]. constructor; [|constructor].
  cbn [Settlement.amount]. destruct Hp as [Pd Pc].
  apply round2_not_negative, payable_not_negative, Math_min_payable.
  - exact (proj1 (Forall_lookup _ _) Pd _ _ Hd).
  - exact (proj1 (Forall_lookup _ _) Pc _ _ Hcr).
Qed.

(** X9. When no rounded balance is infinite, no transfer has a negative
    amount and none has NaN for amount, after any number of passes of the
    loop. (An amount of exactly 0 does occur.) *)
Theorem transfer_amounts_not_negative (fuel : nat) (expenses : list Expense.t) :
  finite_balances (accumulate expenses) ->
  Forall (fun t => (Settlement.amount t <? 0)%float = false
                   /\ PrimFloat.is_nan (Settlement.amount t) = false)
         (emitted fuel expenses).
Proof.
  intros Hfin. unfold emitted.
  eapply Forall_impl;
    [apply iterations_amounts_not_negative;
     [now apply loop_start_all_payable|constructor]|].
  intros t Ht. now apply not_negative_compare.
Qed.

Lemma transfer_amounts_not_negative_witness :
  let expenses :=
    [expense (js "C1") 10 (js "D1"); expense (js "C2") 20 (js "D1");
     expense (js "C3") 50 (js "D2")] in
  map Settlement.amount (emitted 4 expenses) = [0.1; 0.2; 0; 0.5]%float
  /\ Forall (fun t => (Settlement.amount t <? 0)%float = false
                      /\ PrimFloat.is_nan (Settlement.amount t) = false)
            (emitted 4 expenses).
Proof.
  intros expenses. split; [vm_compute; reflexivity|].
  apply (transfer_amounts_not_negative 4 expenses).
  vm_compute. repeat constructor.
Defined.
